(** * Polling observer: a shallow embedding of [watchdog/polling_observer.py]

    The Python module has two thread classes.  [_PollingEventProducer]
    repeatedly snapshots one directory tree and puts the events of the diff
    of two consecutive snapshots on a queue.  [PollingObserver] owns the
    queue, the rule table and the set of producer threads, and its [run]
    method routes queue entries to the handlers of the rules.

    Threads are modelled as small-step machines: each thread object carries a
    program counter naming the source line it is at, and a schedule (a list of
    actions) says which thread moves next and what the environment answers.
    Thread and queue objects live in heaps indexed by object identity, so the
    aliasing between the observer's thread set, its rule table and the
    producers' queue references is the aliasing of the Python objects. *)

From stdpp Require Import gmap strings list.

Open Scope string_scope.
Open Scope list_scope.

(** ** Events and diffs (modules [events] and [dirsnapshot]) *)

(** Modelled from the spec: the event classes of [events], a tagged union
    carrying one path, or an old and a new path for moves.  The constructor
    names are the class names the source instantiates. *)
Inductive FileSystemEvent : Type :=
| FileDeletedEvent (src_path : string)
| FileModifiedEvent (src_path : string)
| FileCreatedEvent (src_path : string)
| FileMovedEvent (src_path new_path : string)
| DirModifiedEvent (src_path : string)
| DirDeletedEvent (src_path : string)
| DirCreatedEvent (src_path : string)
| DirMovedEvent (src_path new_path : string).

#[global] Instance FileSystemEvent_eq_dec : EqDecision FileSystemEvent.
Proof. solve_decision. Defined.

(** Modelled from the spec: the diff object returned by
    [new_snapshot - self.snapshot], with the eight attributes the source
    reads.  The three path attributes are sequences in iteration order; the
    two [_moved] attributes are dicts, kept as their [items()] sequence. *)
Record DiffResult : Type := mkDiff {
  files_deleted : list string;
  files_modified : list string;
  files_created : list string;
  files_moved : list (string * string);
  dirs_modified : list string;
  dirs_deleted : list string;
  dirs_created : list string;
  dirs_moved : list (string * string)
}.

(** The snapshot type is the external [DirectorySnapshot] class; the only
    operation the source uses on it is subtraction. *)
Class DirectorySnapshot (Snapshot : Type) :=
  snapshot_sub : Snapshot -> Snapshot -> DiffResult.

(** Object identities of [Queue] and [Thread] objects. *)
Abbreviation QueueId := nat (only parsing).
Abbreviation ThreadId := nat (only parsing).

(** A queue entry is the tuple [(self.path, event)]. *)
Abbreviation QueueEntry := (string * FileSystemEvent)%type (only parsing).

(** Exceptions that the modelled code can see. *)
Inductive Exn : Type :=
| KeyboardInterrupt
| KeyError (key : string)
| RuntimeError (msg : string)
| HandlerError (msg : string).

#[global] Instance Exn_eq_dec : EqDecision Exn.
Proof. solve_decision. Defined.

(** A handler is the external object whose [dispatch(event)] the observer
    calls: [None] when the call returns, [Some e] when it raises [e]. *)
Definition Handler : Type := FileSystemEvent -> option Exn.

(** ** The producer thread *)

(** Where a producer thread is in [_PollingEventProducer.run]. *)
Inductive ProducerPC : Type :=
| Unstarted                (* constructed, [start()] not called yet *)
| LoopTest                 (* at [while not self.stopped.is_set()] *)
| Waiting                  (* inside [self.stopped.wait(self.interval)] *)
| Polling                  (* about to call [_get_directory_snapshot_diff] *)
| Emitting (q : QueueId) (pending : list QueueEntry)
                           (* inside the eight [for] loops, [q] bound *)
| Terminated.              (* [run] has returned *)

Section Model.
Context {Snapshot : Type} `{!DirectorySnapshot Snapshot}.

(** The fields [__init__] sets, the thread's program counter, and a ghost
    counter [polls] of the calls to [DirectorySnapshot(self.path)].  The
    thread name, [args], [kwargs] and the daemon flag play no part in the
    behaviour modelled here. *)
Record _PollingEventProducer : Type := mkProducer {
  interval : nat;
  out_event_queue : option QueueId;
  stopped : bool;
  snapshot : option Snapshot;
  path : string;
  polls : nat;
  pc : ProducerPC
}.

Definition _PollingEventProducer_init
    (path : string) (interval : nat) (out_event_queue : option QueueId)
  : _PollingEventProducer :=
  {| interval := interval; out_event_queue := out_event_queue;
     stopped := false; snapshot := None; path := path;
     polls := 0; pc := Unstarted |}.

Definition set_pc (k : ProducerPC) (self : _PollingEventProducer)
  : _PollingEventProducer :=
  {| interval := interval self; out_event_queue := out_event_queue self;
     stopped := stopped self; snapshot := snapshot self; path := path self;
     polls := polls self; pc := k |}.

(** [stop]: [self.stopped.set()]. *)
Definition producer_stop (self : _PollingEventProducer)
  : _PollingEventProducer :=
  {| interval := interval self; out_event_queue := out_event_queue self;
     stopped := true; snapshot := snapshot self; path := path self;
     polls := polls self; pc := pc self |}.

(** [Thread.start]: the thread begins to execute [run]; a second call
    raises [RuntimeError]. *)
Definition producer_start (self : _PollingEventProducer)
  : Exn + _PollingEventProducer :=
  match pc self with
  | Unstarted => inr (set_pc LoopTest self)
  | _ => inl (RuntimeError "thread already started")
  end.

(** [_get_directory_snapshot_diff]; [new_snapshot] is what
    [DirectorySnapshot(self.path)] returns at the time of the call. *)
Definition _get_directory_snapshot_diff
    (new_snapshot : Snapshot) (self : _PollingEventProducer)
  : _PollingEventProducer * option DiffResult :=
  let diff :=
    match snapshot self with
    | None => None
    | Some old => Some (snapshot_sub new_snapshot old)
    end in
  ({| interval := interval self; out_event_queue := out_event_queue self;
      stopped := stopped self; snapshot := Some new_snapshot;
      path := path self; polls := S (polls self); pc := pc self |},
   diff).

(** The [q.put] calls of the eight [for] loops of [run], in source order. *)
Definition events_of_diff (watched : string) (diff : DiffResult)
  : list QueueEntry :=
  map (fun p => (watched, FileDeletedEvent p)) (files_deleted diff) ++
  map (fun p => (watched, FileModifiedEvent p)) (files_modified diff) ++
  map (fun p => (watched, FileCreatedEvent p)) (files_created diff) ++
  map (fun pn => (watched, FileMovedEvent pn.1 pn.2)) (files_moved diff) ++
  map (fun p => (watched, DirModifiedEvent p)) (dirs_modified diff) ++
  map (fun p => (watched, DirDeletedEvent p)) (dirs_deleted diff) ++
  map (fun p => (watched, DirCreatedEvent p)) (dirs_created diff) ++
  map (fun pn => (watched, DirMovedEvent pn.1 pn.2)) (dirs_moved diff).

(** The guard [if diff and self.out_event_queue]: a diff object and a
    [Queue] object are truthy, [None] is not.  The result is the queue bound
    to [q] and the entries the loops will put. *)
Definition emission (self : _PollingEventProducer) (diff : option DiffResult)
  : option (QueueId * list QueueEntry) :=
  match diff, out_event_queue self with
  | Some d, Some q => Some (q, events_of_diff (path self) d)
  | _, _ => None
  end.

(** One poll as a whole: the body of the [while] loop after the wait. *)
Definition poll (new_snapshot : Snapshot) (self : _PollingEventProducer)
  : _PollingEventProducer * list (QueueId * QueueEntry) :=
  let '(self', diff) := _get_directory_snapshot_diff new_snapshot self in
  (self',
   match emission self' diff with
   | Some (q, evs) => map (pair q) evs
   | None => []
   end).

(** One scheduling step of the producer thread.  The second component is the
    [q.put] performed by the step, if any. *)
Definition producer_step
    (new_snapshot : Snapshot) (self : _PollingEventProducer)
  : _PollingEventProducer * option (QueueId * QueueEntry) :=
  match pc self with
  | Unstarted => (self, None)
  | LoopTest =>
      if stopped self then (set_pc Terminated self, None)
      else (set_pc Waiting self, None)
  | Waiting =>
      (* the wait ends on the timeout or on the flag; its result is dropped *)
      (set_pc Polling self, None)
  | Polling =>
      let '(self', diff) := _get_directory_snapshot_diff new_snapshot self in
      match emission self' diff with
      | Some (q, evs) => (set_pc (Emitting q evs) self', None)
      | None => (set_pc LoopTest self', None)
      end
  | Emitting q [] => (set_pc LoopTest self, None)
  | Emitting q (e :: rest) => (set_pc (Emitting q rest) self, Some (q, e))
  | Terminated => (self, None)
  end.

(** What can happen to one producer: its thread takes a step (the snapshot
    provider would answer [new_snapshot]), or another thread calls [stop]. *)
Inductive ProducerAction : Type :=
| PStep (new_snapshot : Snapshot)
| PStop.

Fixpoint producer_exec (acts : list ProducerAction)
    (self : _PollingEventProducer)
  : _PollingEventProducer * list (QueueId * QueueEntry) :=
  match acts with
  | [] => (self, [])
  | PStep s :: acts' =>
      let '(self1, put) := producer_step s self in
      let '(self2, puts) := producer_exec acts' self1 in
      (self2, option_list put ++ puts)
  | PStop :: acts' => producer_exec acts' (producer_stop self)
  end.

End Model.

Arguments _PollingEventProducer : clear implicits.
Arguments ProducerAction : clear implicits.

(** ** The observer *)

(** A value of [self.rules]: the dict with the keys ['event_handler'] and
    ['event_producer_thread'].  The thread is held by reference. *)
Record Rule : Type := mkRule {
  event_handler : Handler;
  event_producer_thread : ThreadId
}.

(** Where the observer thread is in [PollingObserver.run].  The iterator of
    [for t in self.event_producer_threads] remembers the size the set had when
    the iterator was made ([it_size]) and the members it has not visited yet
    ([rest]); see [for_next] for what this leaves out. *)
Inductive RunPC : Type :=
| NotRunning
| ForLoop (it_size : nat) (rest : list ThreadId)
| Dispatching (t : ThreadId) (it_size : nat) (rest : list ThreadId)
| Returned
| Raised (e : Exn).

Section Observer.
Context {Snapshot : Type} `{!DirectorySnapshot Snapshot}.

(** The observer object together with the heaps of the objects it refers
    to.  [dispatched] is a ghost log of the [event_handler.dispatch(event)]
    calls made so far. *)
Record PollingObserver : Type := mkObserver {
  threads : gmap ThreadId (_PollingEventProducer Snapshot);
  queues : gmap QueueId (list QueueEntry);
  observer_interval : nat;
  event_queue : QueueId;
  event_producer_threads : gset ThreadId;
  rules : gmap string Rule;
  run_pc : RunPC;
  dispatched : list QueueEntry
}.

(** [PollingObserver.__init__]: a fresh [Queue], no threads, no rules. *)
Definition PollingObserver_init (interval : nat) : PollingObserver :=
  {| threads := ∅; queues := {[ 0 := [] ]}; observer_interval := interval;
     event_queue := 0; event_producer_threads := ∅; rules := ∅;
     run_pc := NotRunning; dispatched := [] |}.

Definition set_threads (h : gmap ThreadId (_PollingEventProducer Snapshot))
    (self : PollingObserver) : PollingObserver :=
  {| threads := h; queues := queues self;
     observer_interval := observer_interval self;
     event_queue := event_queue self;
     event_producer_threads := event_producer_threads self;
     rules := rules self; run_pc := run_pc self;
     dispatched := dispatched self |}.

Definition set_queues (h : gmap QueueId (list QueueEntry))
    (self : PollingObserver) : PollingObserver :=
  {| threads := threads self; queues := h;
     observer_interval := observer_interval self;
     event_queue := event_queue self;
     event_producer_threads := event_producer_threads self;
     rules := rules self; run_pc := run_pc self;
     dispatched := dispatched self |}.

Definition set_run_pc (k : RunPC) (self : PollingObserver)
  : PollingObserver :=
  {| threads := threads self; queues := queues self;
     observer_interval := observer_interval self;
     event_queue := event_queue self;
     event_producer_threads := event_producer_threads self;
     rules := rules self; run_pc := k;
     dispatched := dispatched self |}.

Definition log_dispatch (entry : QueueEntry) (self : PollingObserver)
  : PollingObserver :=
  {| threads := threads self; queues := queues self;
     observer_interval := observer_interval self;
     event_queue := event_queue self;
     event_producer_threads := event_producer_threads self;
     rules := rules self; run_pc := run_pc self;
     dispatched := dispatched self ++ [entry] |}.

(** [q.put(entry)] on the queue object [q]. *)
Definition queue_put (put : QueueId * QueueEntry) (self : PollingObserver)
  : PollingObserver :=
  set_queues (alter (fun l => l ++ [put.2]) put.1 (queues self)) self.

(** [t.stop()] on the thread object [t]. *)
Definition stop_thread (t : ThreadId) (self : PollingObserver)
  : PollingObserver :=
  set_threads (alter producer_stop t (threads self)) self.

(** [add_rule]: nothing happens when [path] is a key of [self.rules];
    otherwise a new producer thread object is made, bound to the observer's
    queue, and recorded in the set and in the rule table.  The key is [path]
    as it was passed. *)
Definition add_rule (path : string) (event_handler : Handler)
    (self : PollingObserver) : PollingObserver :=
  match rules self !! path with
  | Some _ => self
  | None =>
      let t := fresh (dom (threads self)) in
      let event_producer_thread :=
        _PollingEventProducer_init path (observer_interval self)
          (Some (event_queue self)) in
      {| threads := <[t := event_producer_thread]> (threads self);
         queues := queues self;
         observer_interval := observer_interval self;
         event_queue := event_queue self;
         event_producer_threads := {[t]} ∪ event_producer_threads self;
         rules := <[path := mkRule event_handler t]> (rules self);
         run_pc := run_pc self;
         dispatched := dispatched self |}
  end.

(** [remove_rule]: pops the rule, stops its thread and removes the thread
    from the set; [set.remove] raises [KeyError] on a missing member. *)
Definition remove_rule (path : string) (self : PollingObserver)
  : PollingObserver * option Exn :=
  match rules self !! path with
  | None => (self, None)
  | Some rule =>
      let t := event_producer_thread rule in
      ({| threads := alter producer_stop t (threads self);
          queues := queues self;
          observer_interval := observer_interval self;
          event_queue := event_queue self;
          event_producer_threads := event_producer_threads self ∖ {[t]};
          rules := delete path (rules self);
          run_pc := run_pc self;
          dispatched := dispatched self |},
       if decide (t ∈ event_producer_threads self) then None
       else Some (KeyError "event_producer_thread"))
  end.

(** [stop]: [t.stop()] for every [t] of the set. *)
Definition stop (self : PollingObserver) : PollingObserver :=
  set_threads
    (foldr (alter producer_stop) (threads self)
       (elements (event_producer_threads self)))
    self.

(** The header of [for t in self.event_producer_threads] followed by
    [t.start()].  A set iterator first compares the size of the set with the
    size the set had when the iterator was made, and raises [RuntimeError]
    when they differ.  Otherwise it yields its next member.  While the set
    has not been touched since the iterator was made, the members yielded
    are those of the set, each once; [rest] holds the ones still to come, in
    the order of [elements], which is one of the orders the set can have.

    When members were added or removed in the meantime and the size is the
    old one again, the iterator of the interpreter goes on from its position
    in the hash table of the set, and what it yields depends on the layout
    of that table.  [for_next] then goes on with [rest] and skips the
    members that have left the set: this is what the interpreter does when
    the table was not rebuilt and the new members lie before the position of
    the iterator, and it is only one of the behaviours the table allows.
    The theorems about what the [for] loop does next are therefore stated
    for the case that the set has changed size, or for observers whose set
    is as it was at [start()] ([set_as_at_start]). *)
Definition for_next (it_size : nat) (rest : list ThreadId)
    (self : PollingObserver) : PollingObserver :=
  if decide (size (event_producer_threads self) = it_size) then
    match rest with
    | [] => set_run_pc Returned self
    | t :: rest' =>
        if decide (t ∈ event_producer_threads self) then
          match threads self !! t with
          | Some th =>
              match producer_start th with
              | inr th' =>
                  set_run_pc (Dispatching t it_size rest')
                    (set_threads (<[t := th']> (threads self)) self)
              | inl e => set_run_pc (Raised e) self
              end
          | None => set_run_pc (ForLoop it_size rest') self
          end
        else set_run_pc (ForLoop it_size rest') self
    end
  else
    set_run_pc (Raised (RuntimeError "Set changed size during iteration"))
      self.

(** One pass through the body of [while True]: [get] blocks on an empty
    queue; the rule lookup raises [KeyError]; only [KeyboardInterrupt] is
    caught, by the [except] clause around the loop. *)
Definition dispatch_next (t : ThreadId) (it_size : nat)
    (rest : list ThreadId) (self : PollingObserver) : PollingObserver :=
  match queues self !! event_queue self with
  | Some ((rule_path, event) :: q') =>
      let self1 := set_queues (<[event_queue self := q']> (queues self)) self in
      match rules self1 !! rule_path with
      | None => set_run_pc (Raised (KeyError rule_path)) self1
      | Some rule =>
          let self2 := log_dispatch (rule_path, event) self1 in
          match event_handler rule event with
          | None => self2
          | Some KeyboardInterrupt =>
              set_run_pc (ForLoop it_size rest) (stop_thread t self2)
          | Some e => set_run_pc (Raised e) self2
          end
      end
  | _ => self
  end.

(** One scheduling step of the observer thread inside [run]. *)
Definition run_step (self : PollingObserver) : PollingObserver :=
  match run_pc self with
  | NotRunning => self
  | ForLoop it_size rest => for_next it_size rest self
  | Dispatching t it_size rest => dispatch_next t it_size rest self
  | Returned => self
  | Raised _ => self
  end.

(** [Thread.start] on the observer: [run] is entered and the iterator over
    the set is made. *)
Definition observer_start (self : PollingObserver) : PollingObserver :=
  match run_pc self with
  | NotRunning =>
      set_run_pc
        (ForLoop (size (event_producer_threads self))
           (elements (event_producer_threads self)))
        self
  | _ => self
  end.

(** A [KeyboardInterrupt] delivered to the thread executing [run]: inside
    the [try] it is caught and [t.stop()] runs; at the loop header it
    propagates. *)
Definition interrupt (self : PollingObserver) : PollingObserver :=
  match run_pc self with
  | Dispatching t it_size rest =>
      set_run_pc (ForLoop it_size rest) (stop_thread t self)
  | ForLoop _ _ => set_run_pc (Raised KeyboardInterrupt) self
  | _ => self
  end.

(** A step of producer thread [t]. *)
Definition thread_step (t : ThreadId) (new_snapshot : Snapshot)
    (self : PollingObserver) : PollingObserver :=
  match threads self !! t with
  | None => self
  | Some th =>
      let '(th', put) := producer_step new_snapshot th in
      let self1 := set_threads (<[t := th']> (threads self)) self in
      match put with
      | Some qe => queue_put qe self1
      | None => self1
      end
  end.

(** The actions of a schedule: steps of the observer thread and of the
    producer threads, calls made by the owner of the observer, and an
    interrupt. *)
Inductive Action : Type :=
| ObserverStart
| ObserverStep
| ProducerStep (t : ThreadId) (new_snapshot : Snapshot)
| CallAddRule (path : string) (h : Handler)
| CallRemoveRule (path : string)
| CallStop
| Interrupt.

Definition act (a : Action) (self : PollingObserver) : PollingObserver :=
  match a with
  | ObserverStart => observer_start self
  | ObserverStep => run_step self
  | ProducerStep t s => thread_step t s self
  | CallAddRule p h => add_rule p h self
  | CallRemoveRule p => (remove_rule p self).1
  | CallStop => stop self
  | Interrupt => interrupt self
  end.

Definition exec (tr : list Action) (self : PollingObserver)
  : PollingObserver :=
  foldl (fun s a => act a s) self tr.

(** Actions that leave the rule table alone and deliver no interrupt. *)
Definition quiet (a : Action) : bool :=
  match a with
  | ObserverStep | ProducerStep _ _ | CallStop => true
  | _ => false
  end.

(** Actions that leave the rule table alone. *)
Definition keeps_rules (a : Action) : bool :=
  match a with
  | CallAddRule _ _ | CallRemoveRule _ => false
  | _ => true
  end.

(** The observer is in its Running state: [run] has been entered and has
    neither returned nor raised. *)
Definition Running (self : PollingObserver) : Prop :=
  match run_pc self with
  | ForLoop _ _ | Dispatching _ _ _ => True
  | _ => False
  end.

(** The thread object [t] has been started. *)
Definition started (t : ThreadId) (self : PollingObserver) : bool :=
  match threads self !! t with
  | Some th => match pc th with Unstarted => false | _ => true end
  | None => false
  end.

(** The number of producer threads of the set that have been started. *)
Definition started_count (self : PollingObserver) : nat :=
  length (filter (fun t => started t self = true)
            (elements (event_producer_threads self))).

End Observer.

Arguments PollingObserver : clear implicits.
Arguments Action : clear implicits.

(** ** A concrete snapshot type, for evaluating the model on examples *)

(** A listing of the files and directories under a root.  Its subtraction
    reports what appeared and what disappeared; it stands in for the external
    snapshot class wherever an example needs to run. *)
Record Listing : Type := mkListing {
  listed_files : list string;
  listed_dirs : list string
}.

Definition listing_sub (new old : Listing) : DiffResult :=
  {| files_deleted := list_difference (listed_files old) (listed_files new);
     files_modified := [];
     files_created := list_difference (listed_files new) (listed_files old);
     files_moved := [];
     dirs_modified :=
       if decide (listed_files new = listed_files old) then []
       else list_intersection (listed_dirs old) (listed_dirs new);
     dirs_deleted := list_difference (listed_dirs old) (listed_dirs new);
     dirs_created := list_difference (listed_dirs new) (listed_dirs old);
     dirs_moved := [] |}.

#[global] Instance Listing_snapshot : DirectorySnapshot Listing := listing_sub.

(** A handler that accepts every event. *)
Definition accept_all : Handler := fun _ => None.

(** A handler whose [dispatch] raises an ordinary error. *)
Definition failing_handler : Handler := fun _ => Some (HandlerError "boom").

(** A handler whose [dispatch] raises [KeyboardInterrupt]. *)
Definition interrupting_handler : Handler := fun _ => Some KeyboardInterrupt.

(** An observer with two rules. *)
Definition two_rules : PollingObserver Listing :=
  add_rule "/b" accept_all (add_rule "/a" accept_all (PollingObserver_init 1)).

(** The emission order as the specification words it: deleted, modified,
    created, moved, for files and then for directories.  It is compared with
    [events_of_diff], which follows the source. *)
Definition events_in_spec_order (watched : string) (diff : DiffResult)
  : list QueueEntry :=
  map (fun p => (watched, FileDeletedEvent p)) (files_deleted diff) ++
  map (fun p => (watched, FileModifiedEvent p)) (files_modified diff) ++
  map (fun p => (watched, FileCreatedEvent p)) (files_created diff) ++
  map (fun pn => (watched, FileMovedEvent pn.1 pn.2)) (files_moved diff) ++
  map (fun p => (watched, DirDeletedEvent p)) (dirs_deleted diff) ++
  map (fun p => (watched, DirModifiedEvent p)) (dirs_modified diff) ++
  map (fun p => (watched, DirCreatedEvent p)) (dirs_created diff) ++
  map (fun pn => (watched, DirMovedEvent pn.1 pn.2)) (dirs_moved diff).

(** An event about a file, as opposed to a directory. *)
Definition is_file_event (e : FileSystemEvent) : bool :=
  match e with
  | FileDeletedEvent _ | FileModifiedEvent _
  | FileCreatedEvent _ | FileMovedEvent _ _ => true
  | _ => false
  end.

(** The number of thread steps in a list of producer actions. *)
Fixpoint count_steps {Snapshot : Type}
    (acts : list (ProducerAction Snapshot)) : nat :=
  match acts with
  | [] => 0
  | PStep _ :: acts' => S (count_steps acts')
  | PStop :: acts' => count_steps acts'
  end.

(** Two listings of [/data]: between them one file and one directory
    disappear. *)
Definition baseline_listing : Listing :=
  mkListing ["/data/a"] ["/data/d1"; "/data/d2"].

Definition later_listing : Listing :=
  mkListing [] ["/data/d2"].

(** A producer about to take its second snapshot of [/data]. *)
Definition polling_producer : _PollingEventProducer Listing :=
  {| interval := 1; out_event_queue := Some 0; stopped := false;
     snapshot := Some baseline_listing; path := "/data"; polls := 1;
     pc := Polling |}.

(** A producer at the loop test with its stop flag set. *)
Definition stopped_producer : _PollingEventProducer Listing :=
  {| interval := 1; out_event_queue := Some 0; stopped := true;
     snapshot := Some baseline_listing; path := "/data"; polls := 1;
     pc := LoopTest |}.

(** A producer in the emission loops with two entries still to put. *)
Definition emitting_producer : _PollingEventProducer Listing :=
  {| interval := 1; out_event_queue := Some 0; stopped := false;
     snapshot := Some later_listing; path := "/data"; polls := 2;
     pc := Emitting 0 [("/data", DirModifiedEvent "/data/d2");
                       ("/data", DirDeletedEvent "/data/d1")] |}.

(** A producer without a queue, about to take its second snapshot. *)
Definition queueless_producer : _PollingEventProducer Listing :=
  {| interval := 1; out_event_queue := None; stopped := false;
     snapshot := Some baseline_listing; path := "/data"; polls := 1;
     pc := Polling |}.

(** A started producer about to take its first snapshot. *)
Definition fresh_producer : _PollingEventProducer Listing :=
  set_pc Polling (_PollingEventProducer_init "/data" 1 (Some 0)).

(** ** Example runs *)

(** Thread [t] polls twice: the baseline, and the later listing, whose three
    entries it puts on its queue. *)
Definition poll_twice (t : ThreadId) : list (Action Listing) :=
  repeat (ProducerStep t baseline_listing) 3 ++
  repeat (ProducerStep t later_listing) 6.

(** An observer with one rule for [/data], handled by [h], whose [run] is
    in the dispatch loop while three entries wait in the queue. *)
Definition running_one_rule (h : Handler) : PollingObserver Listing :=
  exec ([ObserverStart; ObserverStep] ++ poll_twice 0)
    (add_rule "/data" h (PollingObserver_init 1)).

(** The same, after the rule has been removed: the queued entries are
    stale. *)
Definition stale_state : PollingObserver Listing :=
  (remove_rule "/data" (running_one_rule accept_all)).1.

(** Two rules, [run] entered and one step taken. *)
Definition running_two_rules : PollingObserver Listing :=
  exec [ObserverStart; ObserverStep] two_rules.

(** A stand-in for [realpath(abspath(path))]: it drops one trailing slash,
    as path normalisation does. *)
Fixpoint canonical (p : string) : string :=
  match p with
  | EmptyString => EmptyString
  | String c rest =>
      if decide (rest = "/") then String c EmptyString
      else String c (canonical rest)
  end.

(** ** Invariants of the observer *)

Section Invariants.
Context {Snapshot : Type}.
Implicit Types (self : PollingObserver Snapshot).

(** The rule table and the thread set hold the same thread objects, and the
    thread of the rule for [p] watches [p]. *)
Definition rules_consistent self : Prop :=
  (forall p r, rules self !! p = Some r ->
     event_producer_thread r ∈ event_producer_threads self /\
     exists th, threads self !! event_producer_thread r = Some th /\
                path th = p) /\
  (forall t, t ∈ event_producer_threads self ->
     exists p r, rules self !! p = Some r /\ event_producer_thread r = t).

(** The entry belongs to a path that has a rule. *)
Definition ruled self (entry : QueueEntry) : Prop :=
  is_Some (rules self !! entry.1).

(** No handler of the table ever raises, and every entry that is queued or
    about to be queued belongs to a path that has a rule. *)
Definition calm self : Prop :=
  (forall p r e, rules self !! p = Some r -> event_handler r e = None) /\
  (forall q l, queues self !! q = Some l -> Forall (ruled self) l) /\
  (forall t th, threads self !! t = Some th ->
     is_Some (rules self !! path th) /\
     forall q pending, pc th = Emitting q pending ->
                       Forall (ruled self) pending).

(** [run] is under way or has raised, and its set iterator was made when the
    set had [n] members. *)
Definition it_size_is (n : nat) (k : RunPC) : Prop :=
  match k with
  | ForLoop n' _ | Dispatching _ n' _ => n' = n
  | Raised _ => True
  | NotRunning | Returned => False
  end.

(** Thread [t] exists, has not been started and has never polled. *)
Definition idle (t : ThreadId) self : Prop :=
  exists th, threads self !! t = Some th /\ pc th = Unstarted /\ polls th = 0.

(** The set has changed size under the iterator of [run], and thread [t] is
    idle. *)
Definition outgrown (n : nat) (t : ThreadId) self : Prop :=
  size (event_producer_threads self) <> n /\
  it_size_is n (run_pc self) /\
  idle t self.

(** [self'] has the rule table and the thread set of [self], and every
    thread object of [self] is still there and watches the same path. *)
Definition steady self self' : Prop :=
  rules self' = rules self /\
  event_producer_threads self' = event_producer_threads self /\
  forall t th0, threads self !! t = Some th0 ->
    exists th, threads self' !! t = Some th /\ path th = path th0.


End Invariants.


(** ** Whole polls in sequence, and the entry point of the module *)

Section Compositions.
Context {Snapshot : Type} `{!DirectorySnapshot Snapshot}.

(** The polls of successive rounds of the producer's [while] loop, one per
    snapshot the provider returns, with the entries they put. *)
Fixpoint poll_seq (snaps : list Snapshot)
    (self : _PollingEventProducer Snapshot)
  : _PollingEventProducer Snapshot * list (QueueId * QueueEntry) :=
  match snaps with
  | [] => (self, [])
  | s :: snaps' =>
      let '(self1, puts1) := poll s self in
      let '(self2, puts2) := poll_seq snaps' self1 in
      (self2, puts1 ++ puts2)
  end.

(** The entries a producer has in flight carry its path and go to its
    queue. *)
Definition own_entries (self : _PollingEventProducer Snapshot) : Prop :=
  forall q pending, pc self = Emitting q pending ->
    out_event_queue self = Some q /\
    Forall (fun entry : string * FileSystemEvent => entry.1 = path self)
      pending.

(** The start of the [__main__] block: a new observer with the default
    interval, one rule, and [o.start()]. *)
Definition main_setup (path : string) (h : Handler)
  : PollingObserver Snapshot :=
  observer_start (add_rule path h (PollingObserver_init 1)).

(** The [except KeyboardInterrupt] clause of the [__main__] block:
    [o.remove_rule(path)] and then [o.stop()]. *)
Definition main_shutdown (path : string) (self : PollingObserver Snapshot)
  : PollingObserver Snapshot :=
  stop (remove_rule path self).1.

(** The entries thread [t] is still to put on the observer's queue. *)
Definition pending_of (t : ThreadId) (self : PollingObserver Snapshot)
  : list QueueEntry :=
  match threads self !! t with
  | Some th =>
      match pc th with
      | Emitting q pending =>
          if decide (q = event_queue self) then pending else []
      | _ => []
      end
  | None => []
  end.

(** Everything that has left the diffs of thread [t] so far, in order: the
    entries already handed to a handler, the entries in the observer's
    queue, and the entries [t] is still to put. *)
Definition stream (t : ThreadId) (self : PollingObserver Snapshot)
  : list QueueEntry :=
  dispatched self ++
  default [] (queues self !! event_queue self) ++
  pending_of t self.





(** The entries of the poll that action [a] makes thread [t] perform, if it
    does. *)
Definition polled_by (t : ThreadId) (a : Action Snapshot)
    (self : PollingObserver Snapshot) : list QueueEntry :=
  match a with
  | ProducerStep i new_snapshot =>
      if decide (i = t) then
        match threads self !! t with
        | Some th =>
            match pc th with
            | Polling => map snd (poll new_snapshot th).2
            | _ => []
            end
        | None => []
        end
      else []
  | _ => []
  end.

(** The entries of all the polls thread [t] performs along a schedule. *)
Fixpoint emitted (t : ThreadId) (tr : list (Action Snapshot))
    (self : PollingObserver Snapshot) : list QueueEntry :=
  match tr with
  | [] => []
  | a :: tr' => polled_by t a self ++ emitted t tr' (act a self)
  end.

(** Thread [t] is the only thread, it was made with the observer's queue,
    and that queue exists. *)
Definition sole (t : ThreadId) (self : PollingObserver Snapshot) : Prop :=
  (forall i th, threads self !! i = Some th ->
     i = t /\
     out_event_queue th = Some (event_queue self) /\
     forall q pending, pc th = Emitting q pending -> q = event_queue self) /\
  is_Some (queues self !! event_queue self).


End Compositions.

Arguments main_setup : clear implicits.


(** * Properties of the producer *)

Section ProducerProperties.
Context {Snapshot : Type} `{!DirectorySnapshot Snapshot}.
Implicit Types (self : _PollingEventProducer Snapshot).
Implicit Types (acts : list (ProducerAction Snapshot)).

Lemma producer_exec_step (s : Snapshot) acts self :
  producer_exec (PStep s :: acts) self =
  ((producer_exec acts (producer_step s self).1).1,
   option_list (producer_step s self).2 ++
   (producer_exec acts (producer_step s self).1).2).
Proof.
  simpl. destruct (producer_step s self) as [self1 put]. simpl.
  destruct (producer_exec acts self1) as [self2 puts]. reflexivity.
Qed.

Lemma producer_exec_stop acts self :
  producer_exec (PStop :: acts) self = producer_exec acts (producer_stop self).
Proof. reflexivity. Qed.

(** A thread that has returned from [run] does nothing more. *)
Lemma exec_terminated acts : forall self,
  pc self = Terminated ->
  (producer_exec acts self).2 = [] /\
  pc (producer_exec acts self).1 = Terminated /\
  polls (producer_exec acts self).1 = polls self /\
  snapshot (producer_exec acts self).1 = snapshot self.
Proof.
  induction acts as [|[s|] acts IH]; intros self Hpc.
  - simpl. auto.
  - rewrite producer_exec_step. unfold producer_step. rewrite Hpc. simpl.
    apply IH, Hpc.
  - rewrite producer_exec_stop. apply (IH (producer_stop self)), Hpc.
Qed.

(** The flag is read at the loop test only: once the test has seen it set,
    the thread returns and neither snapshots nor puts anything. *)
Lemma exec_stopped_at_test acts : forall self,
  pc self = LoopTest -> stopped self = true ->
  (producer_exec acts self).2 = [] /\
  polls (producer_exec acts self).1 = polls self /\
  snapshot (producer_exec acts self).1 = snapshot self /\
  (pc (producer_exec acts self).1 = LoopTest \/
   pc (producer_exec acts self).1 = Terminated) /\
  (0 < count_steps acts -> pc (producer_exec acts self).1 = Terminated).
Proof.
  induction acts as [|[s|] acts IH]; intros self Hpc Hst.
  - simpl. repeat split; auto. intros; lia.
  - rewrite producer_exec_step. unfold producer_step. rewrite Hpc, Hst.
    simpl.
    destruct (exec_terminated acts (set_pc Terminated self) eq_refl)
      as (-> & Ht & Hp & Hs).
    repeat split; auto.
  - rewrite producer_exec_stop. simpl.
    destruct (IH (producer_stop self) Hpc eq_refl) as (? & ? & ? & ? & ?).
    repeat split; auto.
Qed.

(** The eight loops do not read the flag: a stopped thread that is emitting
    puts every pending entry, in order, and then returns. *)
Lemma exec_stopped_emitting acts : forall self q pending,
  pc self = Emitting q pending -> stopped self = true ->
  length pending + 2 <= count_steps acts ->
  (producer_exec acts self).2 = map (pair q) pending /\
  pc (producer_exec acts self).1 = Terminated /\
  polls (producer_exec acts self).1 = polls self /\
  snapshot (producer_exec acts self).1 = snapshot self.
Proof.
  induction acts as [|[s|] acts IH]; intros self q pending Hpc Hst Hlen.
  - simpl in Hlen. lia.
  - rewrite producer_exec_step. unfold producer_step. rewrite Hpc.
    simpl in Hlen.
    destruct pending as [|e rest]; simpl.
    + destruct (exec_stopped_at_test acts (set_pc LoopTest self)
                  eq_refl Hst) as (-> & Hp & Hs & _ & Ht).
      repeat split; auto. apply Ht. simpl in Hlen. lia.
    + destruct (IH (set_pc (Emitting q rest) self) q rest eq_refl Hst)
        as (-> & ? & ? & ?); [simpl in Hlen; lia|].
      repeat split; auto.
  - rewrite producer_exec_stop.
    destruct (IH (producer_stop self) q pending Hpc eq_refl Hlen)
      as (? & ? & ? & ?).
    repeat split; auto.
Qed.

(** Without interference, an emitting thread puts the pending entries one
    per step and is back at the loop test one step later. *)
Lemma exec_emitting_steps (snaps : list Snapshot) : forall self q pending,
  pc self = Emitting q pending ->
  length snaps = S (length pending) ->
  producer_exec (map PStep snaps) self =
  (set_pc LoopTest self, map (pair q) pending).
Proof.
  induction snaps as [|s snaps IH]; intros self q pending Hpc Hlen.
  - discriminate.
  - rewrite map_cons, producer_exec_step. unfold producer_step. rewrite Hpc.
    destruct pending as [|e rest]; simpl.
    + destruct snaps; [|discriminate]. reflexivity.
    + rewrite (IH (set_pc (Emitting q rest) self) q rest eq_refl)
        by (simpl in Hlen; lia).
      reflexivity.
Qed.

(** What one thread step does at [Polling], in terms of [poll]. *)
Lemma step_polling (new_snapshot : Snapshot) self :
  pc self = Polling ->
  producer_step new_snapshot self =
  (match emission (poll new_snapshot self).1
           (_get_directory_snapshot_diff new_snapshot self).2 with
   | Some (q, evs) => set_pc (Emitting q evs) (poll new_snapshot self).1
   | None => set_pc LoopTest (poll new_snapshot self).1
   end, None).
Proof.
  intros Hpc. unfold producer_step, poll. rewrite Hpc.
  destruct (_get_directory_snapshot_diff new_snapshot self) as [self' diff].
  simpl. destruct (emission self' diff) as [[q evs]|]; reflexivity.
Qed.

Lemma poll_puts (new_snapshot : Snapshot) self :
  (poll new_snapshot self).2 =
  match emission (poll new_snapshot self).1
          (_get_directory_snapshot_diff new_snapshot self).2 with
  | Some (q, evs) => map (pair q) evs
  | None => []
  end.
Proof. reflexivity. Qed.

(** Entries are put only while the thread is in the eight loops, and the
    loops are entered only with a queue. *)
Lemma exec_without_queue acts : forall self,
  out_event_queue self = None ->
  (forall q pending, pc self <> Emitting q pending) ->
  (producer_exec acts self).2 = [] /\
  out_event_queue (producer_exec acts self).1 = None.
Proof.
  induction acts as [|[s|] acts IH]; intros self Hq Hpc.
  - simpl. auto.
  - rewrite producer_exec_step.
    assert ((producer_step s self).2 = None /\
            out_event_queue (producer_step s self).1 = None /\
            forall q pending, pc (producer_step s self).1 <> Emitting q pending)
      as (Hput & Hq' & Hpc').
    { unfold producer_step.
      destruct (pc self) as [| | | |q0 pending0|] eqn:E; simpl.
      - rewrite E. auto.
      - destruct (stopped self); simpl; auto.
      - auto.
      - unfold emission. simpl. rewrite Hq.
        destruct (snapshot self); simpl; auto.
      - exfalso. by eapply Hpc.
      - rewrite E. auto. }
    rewrite Hput. simpl. apply IH; assumption.
  - rewrite producer_exec_stop. apply IH; assumption.
Qed.

Lemma step_polls_monotone (s : Snapshot) self :
  polls self <= polls (producer_step s self).1.
Proof.
  unfold producer_step.
  destruct (pc self) as [| | | |q [|e rest]|]; simpl; try lia.
  - destruct (stopped self); simpl; lia.
  - destruct (emission _ _) as [[q evs]|]; simpl; lia.
Qed.

Lemma exec_polls_monotone acts : forall self,
  polls self <= polls (producer_exec acts self).1.
Proof.
  induction acts as [|[s|] acts IH]; intros self.
  - simpl. lia.
  - rewrite producer_exec_step. simpl.
    pose proof (step_polls_monotone s self).
    pose proof (IH (producer_step s self).1). lia.
  - rewrite producer_exec_stop. apply (IH (producer_stop self)).
Qed.

(** Until its second snapshot a producer has no previous snapshot to diff
    against, so it is never in the emission loops and puts nothing. *)
Lemma exec_before_second_poll acts : forall self,
  (polls self = 0 -> snapshot self = None) ->
  (polls self <= 1 -> forall q pending, pc self <> Emitting q pending) ->
  polls (producer_exec acts self).1 <= 1 ->
  (producer_exec acts self).2 = [].
Proof.
  induction acts as [|[s|] acts IH]; intros self Hsnap Hpc Hfin.
  - reflexivity.
  - rewrite producer_exec_step in Hfin |- *. simpl in Hfin |- *.
    pose proof (exec_polls_monotone acts (producer_step s self).1) as Hm1.
    pose proof (step_polls_monotone s self) as Hm2.
    assert (polls self <= 1) as Hle by lia.
    specialize (Hpc Hle).
    assert ((producer_step s self).2 = None /\
            (polls (producer_step s self).1 = 0 ->
             snapshot (producer_step s self).1 = None) /\
            (polls (producer_step s self).1 <= 1 ->
             forall q pending,
               pc (producer_step s self).1 <> Emitting q pending))
      as (Hput & Hsnap' & Hpc').
    { unfold producer_step.
      destruct (pc self) as [| | | |q0 pending0|] eqn:E; simpl.
      - rewrite E. auto.
      - destruct (stopped self); simpl; auto.
      - auto.
      - unfold emission. simpl.
        destruct (snapshot self) as [old|] eqn:Es; simpl.
        + assert (polls self <> 0)
            by (intros H0; specialize (Hsnap H0); congruence).
          destruct (out_event_queue self); simpl;
            (split; [done|]); (split; [lia|]); intros; lia.
        + split; [done|]. split; [lia|]. done.
      - exfalso. by eapply Hpc.
      - rewrite E. auto. }
    rewrite Hput. simpl. apply IH; assumption.
  - rewrite producer_exec_stop in Hfin |- *. apply IH; assumption.
Qed.

(** C8: the first poll of a producer (no snapshot stored yet) stores the
    snapshot it takes as the baseline and puts nothing on the queue: the
    poll as a whole yields no put, and the thread step that performs it goes
    straight back to the loop test without entering the emission loops.  A
    newly made and started producer has no snapshot, so whatever the
    schedule, nothing has been put by the time its first poll is done. *)
Theorem first_poll_is_baseline :
  (forall self (new_snapshot : Snapshot),
     snapshot self = None ->
     snapshot (poll new_snapshot self).1 = Some new_snapshot /\
     (poll new_snapshot self).2 = [] /\
     (pc self = Polling ->
      (producer_step new_snapshot self).2 = None /\
      pc (producer_step new_snapshot self).1 = LoopTest /\
      snapshot (producer_step new_snapshot self).1 = Some new_snapshot)) /\
  (forall (watched : string) (n : nat) (q : option QueueId) acts,
     let self0 :=
       set_pc LoopTest (_PollingEventProducer_init watched n q) in
     snapshot self0 = None /\
     (polls (producer_exec acts self0).1 <= 1 ->
      (producer_exec acts self0).2 = [])).
Proof.
  split.
  - intros self new_snapshot Hnone. split; [reflexivity|]. split.
    + unfold poll, _get_directory_snapshot_diff, emission. rewrite Hnone.
      reflexivity.
    + intros Hpc.
      unfold producer_step, _get_directory_snapshot_diff, emission.
      rewrite Hpc, Hnone. simpl. auto.
  - intros watched n q acts self0. split; [reflexivity|].
    apply exec_before_second_poll; [done|]. intros _ q0 pending.
    discriminate.
Qed.

(** C10: a producer without an output queue still takes a snapshot at every
    poll and stores it as the previous one, and it never puts an entry: not
    in one poll, and not in any execution.  The model has no failing step,
    so no error is raised either. *)
Theorem no_queue_no_events self :
  out_event_queue self = None ->
  (forall new_snapshot : Snapshot,
     snapshot (poll new_snapshot self).1 = Some new_snapshot /\
     polls (poll new_snapshot self).1 = S (polls self) /\
     (poll new_snapshot self).2 = [] /\
     (pc self = Polling ->
      producer_step new_snapshot self =
      (set_pc LoopTest (poll new_snapshot self).1, None))) /\
  ((forall q pending, pc self <> Emitting q pending) ->
   forall acts, (producer_exec acts self).2 = []).
Proof.
  intros Hq. split.
  - intros new_snapshot.
    assert (emission (poll new_snapshot self).1
              (_get_directory_snapshot_diff new_snapshot self).2 = None) as He.
    { unfold emission. simpl. rewrite Hq. by destruct (snapshot self). }
    split; [reflexivity|]. split; [reflexivity|]. split.
    + rewrite poll_puts, He. reflexivity.
    + intros Hpc. rewrite (step_polling _ _ Hpc), He. reflexivity.
  - intros Hpc acts. apply exec_without_queue; assumption.
Qed.

(** C7, as amended: the entries of a poll that has a previous snapshot and a
    queue are put in the order of the eight loops of the source: files
    deleted, modified, created, moved, then directories modified, deleted,
    created, moved; every file event precedes every directory event, and the
    thread steps that follow the poll put exactly these entries in this
    order. *)
Theorem poll_emission_order self (old new_snapshot : Snapshot) (q : QueueId) :
  snapshot self = Some old ->
  out_event_queue self = Some q ->
  let d := snapshot_sub new_snapshot old in
  let w := path self in
  let file_events :=
    map (fun p => (w, FileDeletedEvent p)) (files_deleted d) ++
    map (fun p => (w, FileModifiedEvent p)) (files_modified d) ++
    map (fun p => (w, FileCreatedEvent p)) (files_created d) ++
    map (fun pn => (w, FileMovedEvent pn.1 pn.2)) (files_moved d) in
  let dir_events :=
    map (fun p => (w, DirModifiedEvent p)) (dirs_modified d) ++
    map (fun p => (w, DirDeletedEvent p)) (dirs_deleted d) ++
    map (fun p => (w, DirCreatedEvent p)) (dirs_created d) ++
    map (fun pn => (w, DirMovedEvent pn.1 pn.2)) (dirs_moved d) in
  (poll new_snapshot self).2 = map (pair q) (file_events ++ dir_events) /\
  Forall (fun e => is_file_event e.2 = true) file_events /\
  Forall (fun e => is_file_event e.2 = false) dir_events /\
  (pc self = Polling ->
   forall snaps : list Snapshot,
     length snaps = S (length (file_events ++ dir_events)) ->
     (producer_exec (map PStep (new_snapshot :: snaps)) self).2 =
     map (pair q) (file_events ++ dir_events)).
Proof.
  intros Hold Hq d w file_events dir_events.
  assert (events_of_diff w d = file_events ++ dir_events) as Hev.
  { unfold events_of_diff, file_events, dir_events.
    rewrite <- !app_assoc. reflexivity. }
  assert (emission (poll new_snapshot self).1
            (_get_directory_snapshot_diff new_snapshot self).2 =
          Some (q, file_events ++ dir_events)) as He.
  { unfold emission, _get_directory_snapshot_diff. simpl.
    rewrite Hold, Hq, <- Hev. reflexivity. }
  split; [rewrite poll_puts, He; reflexivity|].
  split.
  { unfold file_events. rewrite !Forall_app, !Forall_map.
    repeat split; apply Forall_true; done. }
  split.
  { unfold dir_events. rewrite !Forall_app, !Forall_map.
    repeat split; apply Forall_true; done. }
  intros Hpc snaps Hlen.
  rewrite map_cons, producer_exec_step, (step_polling _ _ Hpc), He. simpl.
  rewrite (exec_emitting_steps snaps _ q (file_events ++ dir_events));
    [reflexivity|reflexivity|exact Hlen].
Qed.

(** A snapshot taken while the flag is set is followed by the whole poll:
    the snapshot is stored, every entry of the diff is put, and only the
    next loop test ends the thread. *)
Lemma exec_poll_when_stopped (new_snapshot : Snapshot) acts self :
  pc self = Polling -> stopped self = true ->
  length (poll new_snapshot self).2 + 2 <= count_steps acts ->
  let r := producer_exec (PStep new_snapshot :: acts) self in
  r.2 = (poll new_snapshot self).2 /\
  snapshot r.1 = Some new_snapshot /\
  polls r.1 = S (polls self) /\
  pc r.1 = Terminated.
Proof.
  intros Hpc Hst Hlen r. subst r.
  rewrite producer_exec_step, (step_polling new_snapshot self Hpc).
  rewrite poll_puts in Hlen |- *.
  destruct (emission (poll new_snapshot self).1
              (_get_directory_snapshot_diff new_snapshot self).2)
    as [[q evs]|]; simpl.
  - rewrite length_map in Hlen.
    destruct (exec_stopped_emitting acts
                (set_pc (Emitting q evs) (poll new_snapshot self).1)
                q evs eq_refl Hst Hlen)
      as (? & ? & ? & ?).
    auto.
  - destruct (exec_stopped_at_test acts
                (set_pc LoopTest (poll new_snapshot self).1) eq_refl Hst)
      as (? & ? & ? & _ & Ht).
    repeat split; auto. apply Ht. simpl in Hlen. lia.
Qed.

(** C5, as amended: the producer reads its stop flag at the loop test and
    nowhere else.  Once the test has found it set, no later step takes a
    snapshot or puts an entry, and the thread returns.  A poll that is in
    progress when [stop] is called, whether it is about to take its snapshot
    or is emitting, runs to its end: the snapshot is stored and every entry
    of the poll is put, in order, before the thread returns.  A [stop] that
    arrives while the thread is in [self.stopped.wait(self.interval)] ends
    the wait, but the result of the wait is dropped: the thread goes on to a
    new poll, with its snapshot, its diff and all its puts, and returns at
    the loop test after it. *)
Theorem stop_flag_ends_polling self :
  (pc self = LoopTest -> stopped self = true ->
   forall acts,
     (producer_exec acts self).2 = [] /\
     polls (producer_exec acts self).1 = polls self /\
     snapshot (producer_exec acts self).1 = snapshot self /\
     (0 < count_steps acts -> pc (producer_exec acts self).1 = Terminated)) /\
  (pc self = Polling ->
   forall (new_snapshot : Snapshot) acts,
     length (poll new_snapshot self).2 + 2 <= count_steps acts ->
     let r := producer_exec (PStop :: PStep new_snapshot :: acts) self in
     r.2 = (poll new_snapshot self).2 /\
     snapshot r.1 = Some new_snapshot /\
     polls r.1 = S (polls self) /\
     pc r.1 = Terminated) /\
  (forall q pending, pc self = Emitting q pending ->
   forall acts,
     length pending + 2 <= count_steps acts ->
     let r := producer_exec (PStop :: acts) self in
     r.2 = map (pair q) pending /\
     snapshot r.1 = snapshot self /\
     polls r.1 = polls self /\
     pc r.1 = Terminated) /\
  (pc self = Waiting ->
   forall (w new_snapshot : Snapshot) acts,
     length (poll new_snapshot self).2 + 2 <= count_steps acts ->
     let r :=
       producer_exec (PStop :: PStep w :: PStep new_snapshot :: acts) self in
     r.2 = (poll new_snapshot self).2 /\
     snapshot r.1 = Some new_snapshot /\
     polls r.1 = S (polls self) /\
     pc r.1 = Terminated).
Proof.
  split; [|split; [|split]]; cycle 3.
  { intros Hpc w new_snapshot acts Hlen r. subst r.
    rewrite producer_exec_stop, producer_exec_step.
    assert (producer_step w (producer_stop self) =
            (set_pc Polling (producer_stop self), None)) as ->.
    { unfold producer_step. cbn [pc producer_stop]. by rewrite Hpc. }
    cbn [fst snd option_list app].
    exact (exec_poll_when_stopped new_snapshot acts
             (set_pc Polling (producer_stop self)) eq_refl eq_refl Hlen). }
  - intros Hpc Hst acts.
    destruct (exec_stopped_at_test acts self Hpc Hst) as (? & ? & ? & _ & ?).
    auto.
  - intros Hpc new_snapshot acts Hlen r. subst r.
    rewrite producer_exec_stop, producer_exec_step.
    rewrite (step_polling new_snapshot (producer_stop self) Hpc).
    change (poll new_snapshot (producer_stop self)).1
      with (producer_stop (poll new_snapshot self).1).
    change (_get_directory_snapshot_diff new_snapshot (producer_stop self)).2
      with (_get_directory_snapshot_diff new_snapshot self).2.
    rewrite poll_puts in Hlen |- *.
    change (emission (producer_stop (poll new_snapshot self).1))
      with (emission (poll new_snapshot self).1).
    destruct (emission (poll new_snapshot self).1
                (_get_directory_snapshot_diff new_snapshot self).2)
      as [[q evs]|]; simpl.
    + rewrite length_map in Hlen.
      destruct (exec_stopped_emitting acts
                  (set_pc (Emitting q evs)
                     (producer_stop (poll new_snapshot self).1))
                  q evs eq_refl eq_refl Hlen)
        as (? & ? & ? & ?).
      auto.
    + destruct (exec_stopped_at_test acts
                  (set_pc LoopTest (producer_stop (poll new_snapshot self).1))
                  eq_refl eq_refl)
        as (? & ? & ? & _ & Ht).
      repeat split; auto. apply Ht. simpl in Hlen. lia.
  - intros q pending Hpc acts Hlen r. subst r.
    rewrite producer_exec_stop.
    destruct (exec_stopped_emitting acts (producer_stop self) q pending
                Hpc eq_refl Hlen)
      as (? & ? & ? & ?).
    auto.
Qed.

(** The wait is cut short by the flag but its result is not looked at: a
    [stop] that arrives while the thread waits is still followed by one
    poll before the loop test ends the thread. *)
Lemma stop_during_wait_still_polls self (s1 s2 : Snapshot) :
  pc self = Waiting ->
  let r := producer_exec [PStop; PStep s1; PStep s2] self in
  stopped r.1 = true /\ polls r.1 = S (polls self) /\
  snapshot r.1 = Some s2.
Proof.
  intros Hpc. destruct self as [i q st sn p n k]. simpl in Hpc. subst k.
  unfold emission. destruct sn, q; simpl; auto.
Qed.

End ProducerProperties.

(** * Properties of the observer *)

Section ObserverProperties.
Context {Snapshot : Type} `{!DirectorySnapshot Snapshot}.
Implicit Types (self : PollingObserver Snapshot).
Implicit Types (th : _PollingEventProducer Snapshot).
Implicit Types (tr : list (Action Snapshot)).

Lemma iter_fixed {A : Type} (f : A -> A) (x : A) (k : nat) :
  f x = x -> Nat.iter k f x = x.
Proof. intros Hf. induction k as [|k IH]; simpl; congruence. Qed.

Lemma exec_cons (a : Action Snapshot) tr self :
  exec (a :: tr) self = exec tr (act a self).
Proof. reflexivity. Qed.

(** A [run] that has ended, by returning or by an exception, takes no
    further step. *)
Lemma run_step_ended self :
  run_pc self = Returned \/ (exists e, run_pc self = Raised e) ->
  run_step self = self.
Proof. intros [H|[e H]]; unfold run_step; rewrite H; reflexivity. Qed.

(** The body of the dispatch loop, case by case. *)
Lemma dispatch_blocked self t n rest :
  run_pc self = Dispatching t n rest ->
  queues self !! event_queue self = Some [] ->
  run_step self = self.
Proof.
  intros Hpc Hq. unfold run_step, dispatch_next. rewrite Hpc, Hq. reflexivity.
Qed.

Lemma dispatch_stale self t n rest p e q' :
  run_pc self = Dispatching t n rest ->
  queues self !! event_queue self = Some ((p, e) :: q') ->
  rules self !! p = None ->
  run_step self =
  set_run_pc (Raised (KeyError p))
    (set_queues (<[event_queue self := q']> (queues self)) self).
Proof.
  intros Hpc Hq Hr. unfold run_step, dispatch_next. rewrite Hpc, Hq.
  simpl. rewrite Hr. reflexivity.
Qed.

Lemma dispatch_handler self t n rest p e q' rule :
  run_pc self = Dispatching t n rest ->
  queues self !! event_queue self = Some ((p, e) :: q') ->
  rules self !! p = Some rule ->
  run_step self =
  let self2 :=
    log_dispatch (p, e)
      (set_queues (<[event_queue self := q']> (queues self)) self) in
  match event_handler rule e with
  | None => self2
  | Some KeyboardInterrupt => set_run_pc (ForLoop n rest) (stop_thread t self2)
  | Some ex => set_run_pc (Raised ex) self2
  end.
Proof.
  intros Hpc Hq Hr. unfold run_step, dispatch_next. rewrite Hpc, Hq.
  simpl. rewrite Hr. reflexivity.
Qed.

(** C1, as amended: when the dispatch loop pops an entry whose path has no
    rule, the lookup [self.rules[rule_path]] raises [KeyError]; the only
    [except] clause catches [KeyboardInterrupt], so [run] ends with that
    error: the entry is consumed, no handler is called, and no later entry
    is ever taken from the queue. *)
Theorem stale_entry_raises_key_error self t n rest p e q' :
  run_pc self = Dispatching t n rest ->
  queues self !! event_queue self = Some ((p, e) :: q') ->
  rules self !! p = None ->
  run_pc (run_step self) = Raised (KeyError p) /\
  queues (run_step self) !! event_queue self = Some q' /\
  dispatched (run_step self) = dispatched self /\
  forall k, Nat.iter k run_step (run_step self) = run_step self.
Proof.
  intros Hpc Hq Hr. rewrite (dispatch_stale _ _ _ _ _ _ _ Hpc Hq Hr). simpl.
  split; [reflexivity|]. split; [apply lookup_insert_eq|].
  split; [reflexivity|].
  intros k. apply iter_fixed, run_step_ended. right. by eexists.
Qed.

(** C2, as amended: a failure raised by [event_handler.dispatch(event)] is
    caught only when it is a [KeyboardInterrupt]; the current producer is
    then stopped and [run] goes back to the [for] loop header.  Any other
    failure propagates out of [run]: the dispatch loop ends and no later
    entry is taken from the queue. *)
Theorem handler_failure_ends_loop self t n rest p e q' rule ex :
  run_pc self = Dispatching t n rest ->
  queues self !! event_queue self = Some ((p, e) :: q') ->
  rules self !! p = Some rule ->
  event_handler rule e = Some ex ->
  queues (run_step self) !! event_queue self = Some q' /\
  dispatched (run_step self) = dispatched self ++ [(p, e)] /\
  (ex <> KeyboardInterrupt ->
   run_pc (run_step self) = Raised ex /\
   forall k, Nat.iter k run_step (run_step self) = run_step self) /\
  (ex = KeyboardInterrupt ->
   run_pc (run_step self) = ForLoop n rest /\
   threads (run_step self) = alter producer_stop t (threads self)).
Proof.
  intros Hpc Hq Hr Hh. rewrite (dispatch_handler _ _ _ _ _ _ _ _ Hpc Hq Hr).
  simpl. rewrite Hh.
  destruct ex; simpl; (split; [apply lookup_insert_eq|]);
    (split; [reflexivity|]); split; try done; intros _;
    (split; [reflexivity|]); intros k; apply iter_fixed, run_step_ended;
    right; by eexists.
Qed.

(** ** How the operations act on the heap of threads *)

Lemma lookup_foldr_alter_stop (l : list ThreadId)
    (h : gmap ThreadId (_PollingEventProducer Snapshot)) (i : ThreadId) :
  foldr (alter producer_stop) h l !! i =
  if decide (i ∈ l) then producer_stop <$> h !! i else h !! i.
Proof.
  induction l as [|t l IH]; simpl.
  - reflexivity.
  - destruct (decide (t = i)) as [->|Hne].
    + rewrite lookup_alter_eq, IH.
      rewrite (decide_True (P := i ∈ i :: l)) by apply list_elem_of_here.
      case_decide; [by destruct (h !! i)|done].
    + rewrite lookup_alter_ne, IH by done.
      destruct (decide (i ∈ l)) as [Hin|Hnin].
      * rewrite decide_True; [done|by apply list_elem_of_further].
      * rewrite decide_False; [done|].
        rewrite elem_of_cons. intros [?|?]; [congruence|done].
Qed.

Lemma lookup_stop self (i : ThreadId) :
  threads (stop self) !! i =
  if decide (i ∈ event_producer_threads self)
  then producer_stop <$> threads self !! i else threads self !! i.
Proof.
  unfold stop. simpl. rewrite lookup_foldr_alter_stop.
  destruct (decide (i ∈ event_producer_threads self)) as [Hin|Hnin].
  - rewrite decide_True; [done|by apply elem_of_elements].
  - rewrite decide_False; [done|by rewrite elem_of_elements].
Qed.

Lemma started_spec (i : ThreadId) self :
  started i self =
  match pc <$> threads self !! i with
  | Some Unstarted | None => false
  | Some _ => true
  end.
Proof. unfold started. destruct (threads self !! i); reflexivity. Qed.

(** [started] looks at the program counters of the heap only. *)
Lemma started_same_pcs (i : ThreadId) self self' :
  pc <$> threads self' !! i = pc <$> threads self !! i ->
  started i self' = started i self.
Proof. intros H. rewrite !started_spec, H. reflexivity. Qed.

Lemma started_stop (i : ThreadId) self :
  started i (stop self) = started i self.
Proof.
  apply started_same_pcs. rewrite lookup_stop.
  case_decide; [|done]. by destruct (threads self !! i).
Qed.

(** What a producer step keeps: the watched path, whether the thread was
    started, and a property of the entries it is about to put. *)
Lemma producer_step_keeps (P : string * FileSystemEvent -> Prop)
    (s : Snapshot) th :
  (forall e, e.1 = path th -> P e) ->
  (forall q pending, pc th = Emitting q pending -> Forall P pending) ->
  path (producer_step s th).1 = path th /\
  (pc (producer_step s th).1 = Unstarted <-> pc th = Unstarted) /\
  (forall q pending, pc (producer_step s th).1 = Emitting q pending ->
                     Forall P pending) /\
  (forall qe, (producer_step s th).2 = Some qe -> P qe.2).
Proof.
  intros Hpath Hpend. unfold producer_step.
  destruct (pc th) as [| | | |q0 pending0|] eqn:E; simpl.
  - rewrite E. repeat split; done.
  - destruct (stopped th); simpl; repeat split; done.
  - repeat split; done.
  - unfold emission. simpl.
    destruct (snapshot th) as [old|], (out_event_queue th) as [q0|]; simpl;
      repeat split; try done.
    intros q pending [= <- <-]. apply Forall_forall. intros e He.
    apply Hpath. unfold events_of_diff in He.
    rewrite !elem_of_app, !list_elem_of_fmap in He.
    destruct He as [He|[He|[He|[He|[He|[He|[He|He]]]]]]];
      destruct He as (? & -> & _); reflexivity.
  - specialize (Hpend q0 pending0 eq_refl).
    destruct pending0 as [|e rest]; simpl; repeat split; try done.
    + intros q pending [= <- <-]. by inversion Hpend.
    + intros qe [= <-]. by inversion Hpend.
  - rewrite E. repeat split; done.
Qed.

Lemma started_thread_step (i t : ThreadId) (s : Snapshot) self :
  started i (thread_step t s self) = started i self.
Proof.
  unfold thread_step. destruct (threads self !! t) as [th|] eqn:Eth; [|done].
  destruct (producer_step_keeps (fun _ => True) s th) as (_ & Hun & _ & _);
    [done| |].
  { intros. by apply Forall_true. }
  destruct (producer_step s th) as [th' put] eqn:Est. simpl in Hun.
  assert (started i (set_threads (<[t:=th']> (threads self)) self)
          = started i self) as Hs.
  { rewrite !started_spec. simpl.
    destruct (decide (t = i)) as [->|Hne].
    - rewrite lookup_insert_eq, Eth. simpl.
      destruct (pc th'), (pc th); try done;
        try (by (exfalso; destruct Hun as [H1 H2];
                 (discriminate (H1 eq_refl) || discriminate (H2 eq_refl)))).
    - by rewrite lookup_insert_ne. }
  destruct put as [qe|]; [|exact Hs].
  rewrite <- Hs. apply started_same_pcs. reflexivity.
Qed.

(** ** The dispatch loop does not end by itself *)

Lemma calm_stop self : calm self -> calm (stop self).
Proof.
  intros (Hh & Hq & Ht). split; [exact Hh|]. split; [exact Hq|].
  intros t th. rewrite lookup_stop. unfold ruled. simpl.
  case_decide; [|apply Ht].
  destruct (threads self !! t) as [th0|] eqn:E; [|done].
  intros [= <-]. apply (Ht t th0 E).
Qed.

Lemma calm_thread_step (t : ThreadId) (s : Snapshot) self :
  calm self -> calm (thread_step t s self).
Proof.
  intros Hcalm. pose proof Hcalm as (Hh & Hq & Ht). unfold thread_step.
  destruct (threads self !! t) as [th|] eqn:Eth; [|exact Hcalm].
  destruct (Ht t th Eth) as [Hpath Hpend].
  destruct (producer_step_keeps (ruled self) s th) as (Hp' & _ & Hpend' & Hput);
    [by intros e He; unfold ruled; rewrite He|exact Hpend|].
  destruct (producer_step s th) as [th' put]. simpl in Hp', Hpend', Hput.
  assert (forall i thi, <[t:=th']> (threads self) !! i = Some thi ->
            is_Some (rules self !! path thi) /\
            forall q pending, pc thi = Emitting q pending ->
                              Forall (ruled self) pending) as Ht'.
  { intros i thi. destruct (decide (t = i)) as [->|Hne].
    - rewrite lookup_insert_eq. intros [= <-]. rewrite Hp'. by split.
    - rewrite lookup_insert_ne by done. apply Ht. }
  destruct put as [[q e]|]; [|by split; [|split]].
  split; [exact Hh|]. split; [|exact Ht'].
  intros q0 l. unfold queue_put. simpl.
  destruct (decide (q = q0)) as [->|Hne].
  - rewrite lookup_alter_eq.
    destruct (queues self !! q0) as [l0|] eqn:El; [|done].
    intros [= <-]. apply Forall_app. split; [by eapply Hq|].
    apply Forall_singleton. exact (Hput (q0, e) eq_refl).
  - rewrite lookup_alter_ne by done. apply Hq.
Qed.

Lemma calm_dispatch self t n rest :
  calm self -> run_pc self = Dispatching t n rest ->
  calm (run_step self) /\
  run_pc (run_step self) = Dispatching t n rest /\
  rules (run_step self) = rules self /\
  threads (run_step self) = threads self /\
  event_producer_threads (run_step self) = event_producer_threads self.
Proof.
  intros Hcalm Hpc. pose proof Hcalm as (Hh & Hq & Ht).
  destruct (queues self !! event_queue self) as [[|[p e] q']|] eqn:El.
  - rewrite (dispatch_blocked _ _ _ _ Hpc El). by split; [|repeat split].
  - pose proof (Hq _ _ El) as Hl. inversion Hl as [|? ? [r Hr] Hq']. subst.
    simpl in Hr.
    rewrite (dispatch_handler _ _ _ _ _ _ _ _ Hpc El Hr). simpl.
    rewrite (Hh _ _ e Hr). simpl.
    split; [|by repeat split].
    split; [exact Hh|]. split; [|exact Ht].
    intros q0 l. simpl.
    destruct (decide (event_queue self = q0)) as [<-|Hne].
    + rewrite lookup_insert_eq. intros [= <-]. exact Hq'.
    + rewrite lookup_insert_ne by done. apply Hq.
  - unfold run_step, dispatch_next. rewrite Hpc, El.
    by split; [|repeat split].
Qed.

Lemma thread_step_fields (t : ThreadId) (s : Snapshot) self :
  run_pc (thread_step t s self) = run_pc self /\
  rules (thread_step t s self) = rules self /\
  event_producer_threads (thread_step t s self) = event_producer_threads self.
Proof.
  unfold thread_step. destruct (threads self !! t) as [th|]; [|done].
  destruct (producer_step s th) as [th' [qe|]]; done.
Qed.

Lemma quiet_act_dispatching (a : Action Snapshot) self t n rest :
  quiet a = true -> calm self -> run_pc self = Dispatching t n rest ->
  calm (act a self) /\
  run_pc (act a self) = Dispatching t n rest /\
  rules (act a self) = rules self /\
  event_producer_threads (act a self) = event_producer_threads self /\
  forall i, started i (act a self) = started i self.
Proof.
  intros Hquiet Hcalm Hpc. destruct a; try discriminate; simpl.
  - destruct (calm_dispatch _ _ _ _ Hcalm Hpc) as (? & ? & ? & Hthr & ?).
    split; [done|]. repeat split; try done.
    intros i. apply started_same_pcs. by rewrite Hthr.
  - split; [by apply calm_thread_step|].
    destruct (thread_step_fields t0 new_snapshot self) as (-> & -> & ->).
    repeat split; try done. intros i. apply started_thread_step.
  - split; [by apply calm_stop|]. repeat split; try done.
    intros i. apply started_stop.
Qed.

(** With handlers that do not raise and a queue that holds entries of live
    rules only, no schedule of thread steps and [stop] calls moves [run] out
    of the dispatch loop it is in, and no such schedule starts a thread. *)
Lemma dispatching_forever tr : forall self t n rest,
  Forall (fun a => quiet a = true) tr ->
  calm self -> run_pc self = Dispatching t n rest ->
  calm (exec tr self) /\
  run_pc (exec tr self) = Dispatching t n rest /\
  rules (exec tr self) = rules self /\
  event_producer_threads (exec tr self) = event_producer_threads self /\
  forall i, started i (exec tr self) = started i self.
Proof.
  induction tr as [|a tr IH]; intros self t n rest Hq Hcalm Hpc.
  - by split; [|repeat split].
  - inversion Hq as [|? ? Ha Htr]; subst. rewrite exec_cons.
    destruct (quiet_act_dispatching a self t n rest Ha Hcalm Hpc)
      as (Hc1 & Hp1 & Hr1 & He1 & Hs1).
    destruct (IH (act a self) t n rest Htr Hc1 Hp1)
      as (Hc2 & Hp2 & Hr2 & He2 & Hs2).
    split; [done|]. split; [done|]. split; [congruence|].
    split; [congruence|]. intros i. by rewrite Hs2, Hs1.
Qed.

Lemma started_count_same self self' :
  event_producer_threads self' = event_producer_threads self ->
  (forall i, started i self' = started i self) ->
  started_count self' = started_count self.
Proof.
  intros He Hs. unfold started_count. rewrite He. f_equal.
  apply list_filter_iff. intros i. by rewrite Hs.
Qed.

(** ** Calm states are reached by adding rules with handlers that accept *)

Lemma calm_transport self self' :
  rules self' = rules self ->
  queues self' = queues self ->
  (forall t th, threads self' !! t = Some th ->
     exists th0, threads self !! t = Some th0 /\
                 path th = path th0 /\
                 ((exists q pending, pc th = Emitting q pending) ->
                  pc th = pc th0)) ->
  calm self -> calm self'.
Proof.
  intros Hr Hq Ht (Hh & Hqs & Hts). unfold calm, ruled. rewrite Hr, Hq.
  split; [exact Hh|]. split; [exact Hqs|].
  intros t th Hth. destruct (Ht t th Hth) as (th0 & Hth0 & Hp & Hpc).
  destruct (Hts t th0 Hth0) as [Hpath Hpend]. rewrite Hp.
  split; [exact Hpath|]. intros q pending E. apply (Hpend q).
  rewrite <- Hpc; [exact E|by eauto].
Qed.

Lemma calm_set_run_pc (k : RunPC) self : calm self -> calm (set_run_pc k self).
Proof. intros H. exact H. Qed.

Lemma calm_stop_thread (t : ThreadId) self :
  calm self -> calm (stop_thread t self).
Proof.
  apply calm_transport; try reflexivity.
  intros i th. unfold stop_thread. simpl.
  destruct (decide (t = i)) as [->|Hne].
  - rewrite lookup_alter_eq.
    destruct (threads self !! i) as [th0|]; [|done].
    intros [= <-]. by exists th0.
  - rewrite lookup_alter_ne by done. intros Hth. by exists th.
Qed.

Lemma calm_for_next (n : nat) (rest : list ThreadId) self :
  calm self -> calm (for_next n rest self).
Proof.
  intros Hcalm. unfold for_next.
  case_decide; [|exact Hcalm].
  destruct rest as [|t rest']; [exact Hcalm|].
  case_decide; [|exact Hcalm].
  destruct (threads self !! t) as [th|] eqn:Eth; [|exact Hcalm].
  unfold producer_start.
  destruct (pc th) eqn:Epc; try exact Hcalm.
  apply calm_set_run_pc. revert Hcalm.
  apply calm_transport; try reflexivity.
  intros i thi. simpl. destruct (decide (t = i)) as [->|Hne].
  - rewrite lookup_insert_eq. intros [= <-]. exists th.
    repeat split; try done. by intros (q & pending & ?).
  - rewrite lookup_insert_ne by done. intros Hth. by exists thi.
Qed.

Lemma calm_run_step self : calm self -> calm (run_step self).
Proof.
  intros Hcalm. unfold run_step.
  destruct (run_pc self) as [|n rest|t n rest| |e] eqn:Epc; try exact Hcalm.
  - by apply calm_for_next.
  - pose proof (calm_dispatch self t n rest Hcalm Epc) as [H _].
    unfold run_step in H. by rewrite Epc in H.
Qed.

Lemma calm_add_rule (p : string) (h : Handler) self :
  (forall e, h e = None) -> calm self -> calm (add_rule p h self).
Proof.
  intros Hh (Hhs & Hqs & Hts). unfold add_rule.
  destruct (rules self !! p) as [r|] eqn:Er; [by split; [|split]|].
  assert (forall entry : string * FileSystemEvent,
            ruled self entry ->
            is_Some (<[p:=mkRule h (fresh (dom (threads self)))]>
                       (rules self) !! entry.1)) as Hmono.
  { intros entry Hru. rewrite lookup_insert_is_Some.
    destruct (decide (p = entry.1)); [by left|by right]. }
  split; [|split]; simpl.
  - intros p' r' e. destruct (decide (p = p')) as [<-|Hne].
    + rewrite lookup_insert_eq. intros [= <-]. apply Hh.
    + rewrite lookup_insert_ne by done. apply Hhs.
  - intros q l Hl. eapply Forall_impl; [by eapply Hqs|exact Hmono].
  - intros t th.
    destruct (decide (fresh (dom (threads self)) = t)) as [<-|Hne].
    + rewrite lookup_insert_eq. intros [= <-]. simpl.
      split; [by rewrite lookup_insert_eq|]. intros q pending [=].
    + rewrite lookup_insert_ne by done. intros Hth.
      destruct (Hts t th Hth) as [Hpath Hpend]. split.
      * apply (Hmono (path th, FileDeletedEvent "")). exact Hpath.
      * intros q pending E.
        eapply Forall_impl; [by eapply Hpend|exact Hmono].
Qed.

Lemma calm_init (interval : nat) :
  calm (PollingObserver_init (Snapshot := Snapshot) interval).
Proof.
  split; [|split]; simpl.
  - intros p r e. by rewrite lookup_empty.
  - intros q l. destruct (decide (0 = q)) as [<-|Hne].
    + rewrite lookup_singleton_eq. intros [= <-]. constructor.
    + by rewrite lookup_singleton_ne.
  - intros t th. by rewrite lookup_empty.
Qed.

Lemma calm_observer_start self : calm self -> calm (observer_start self).
Proof. intros H. unfold observer_start. by destruct (run_pc self). Qed.

Lemma calm_act (a : Action Snapshot) self :
  keeps_rules a = true -> calm self -> calm (act a self).
Proof.
  intros Ha Hcalm. destruct a; try discriminate; simpl.
  - by apply calm_observer_start.
  - by apply calm_run_step.
  - by apply calm_thread_step.
  - by apply calm_stop.
  - unfold interrupt. destruct (run_pc self); try exact Hcalm.
    by apply calm_set_run_pc, calm_stop_thread.
Qed.

Lemma calm_exec tr : forall self,
  Forall (fun a => keeps_rules a = true) tr ->
  calm self -> calm (exec tr self).
Proof.
  induction tr as [|a tr IH]; intros self Htr Hcalm; [exact Hcalm|].
  inversion Htr; subst. rewrite exec_cons. apply IH; [done|].
  by apply calm_act.
Qed.


(** ** A thread added under a running iterator is never started *)

Lemma idle_not_started (t : ThreadId) self :
  idle t self -> started t self = false.
Proof. intros (th & Hth & Hpc & _). unfold started. by rewrite Hth, Hpc. Qed.

Lemma idle_stop_thread (t t0 : ThreadId) self :
  idle t self -> idle t (stop_thread t0 self).
Proof.
  intros (th & Hth & Hpc & Hpolls). unfold idle, stop_thread. simpl.
  destruct (decide (t0 = t)) as [->|Hne].
  - exists (producer_stop th). by rewrite lookup_alter_eq, Hth.
  - exists th. by rewrite lookup_alter_ne.
Qed.

Lemma idle_stop (t : ThreadId) self : idle t self -> idle t (stop self).
Proof.
  intros (th & Hth & Hpc & Hpolls). unfold idle. rewrite lookup_stop, Hth.
  case_decide; [by exists (producer_stop th)|by exists th].
Qed.

Lemma idle_thread_step (t t0 : ThreadId) (s : Snapshot) self :
  idle t self -> idle t (thread_step t0 s self).
Proof.
  intros (th & Hth & Hpc & Hpolls). unfold thread_step.
  destruct (threads self !! t0) as [th0|] eqn:Eth0; [|by exists th].
  assert (<[t0:=(producer_step s th0).1]> (threads self) !! t = Some th) as Hl.
  { destruct (decide (t0 = t)) as [->|Hne].
    - rewrite lookup_insert_eq. rewrite Hth in Eth0. injection Eth0 as <-.
      unfold producer_step. by rewrite Hpc.
    - by rewrite lookup_insert_ne. }
  destruct (producer_step s th0) as [th' [qe|]]; by exists th.
Qed.

Lemma dispatch_next_shape self t n rest :
  run_pc self = Dispatching t n rest ->
  event_producer_threads (run_step self) = event_producer_threads self /\
  rules (run_step self) = rules self /\
  (threads (run_step self) = threads self \/
   threads (run_step self) = threads (stop_thread t self)) /\
  (run_pc (run_step self) = Dispatching t n rest \/
   run_pc (run_step self) = ForLoop n rest \/
   exists e, run_pc (run_step self) = Raised e).
Proof.
  intros Hpc. unfold run_step, dispatch_next. rewrite Hpc.
  destruct (queues self !! event_queue self) as [[|[p e] q']|];
    [by auto 10| |by auto 10].
  simpl. destruct (rules self !! p) as [r|]; [|by eauto 10].
  destruct (event_handler r e) as [[]|]; simpl; eauto 10.
Qed.

Lemma outgrown_act (a : Action Snapshot) (n : nat) (t : ThreadId) self :
  keeps_rules a = true -> outgrown n t self -> outgrown n t (act a self).
Proof.
  intros Ha Ho. pose proof Ho as (Hsize & Hit & Hidle).
  destruct a; try discriminate; simpl.
  - unfold observer_start.
    destruct (run_pc self) eqn:E; done.
  - unfold run_step.
    destruct (run_pc self) as [|n' rest|t0 n' rest| |e] eqn:E;
      simpl in Hit; try done.
    + subst n'. unfold for_next. rewrite decide_False by done.
      by split; [|split].
    + subst n'.
      destruct (dispatch_next_shape self t0 n rest E) as (He & _ & Hth & Hk).
      unfold run_step in He, Hth, Hk. rewrite E in He, Hth, Hk.
      split; [by rewrite He|]. split.
      * destruct Hk as [->|[->|[e ->]]]; done.
      * destruct Hth as [Hth|Hth].
        -- destruct Hidle as (th & Hl & ?). exists th. by rewrite Hth.
        -- destruct (idle_stop_thread t t0 self Hidle) as (th & Hl & ?).
           exists th. by rewrite Hth.
  - destruct (thread_step_fields t0 new_snapshot self) as (Hk & _ & He).
    split; [by rewrite He|]. split; [by rewrite Hk|].
    by apply idle_thread_step.
  - split; [done|]. split; [done|]. by apply idle_stop.
  - unfold interrupt.
    destruct (run_pc self) as [|n' rest|t0 n' rest| |e] eqn:E;
      simpl in Hit; try done.
    split; [done|]. split; [done|]. by apply idle_stop_thread.
Qed.

Lemma outgrown_exec tr : forall (n : nat) (t : ThreadId) self,
  Forall (fun a => keeps_rules a = true) tr ->
  outgrown n t self -> outgrown n t (exec tr self).
Proof.
  induction tr as [|a tr IH]; intros n t self Htr Ho; [exact Ho|].
  inversion Htr; subst. rewrite exec_cons. apply IH; [done|].
  by apply outgrown_act.
Qed.

(** ** The rule table and the thread set stay consistent *)

Lemma steady_refl self : steady self self.
Proof. repeat split; try done. intros t th0 H. by exists th0. Qed.

Lemma steady_stop_thread (t : ThreadId) self : steady self (stop_thread t self).
Proof.
  repeat split; try done. intros i th0 Hth. unfold stop_thread. simpl.
  destruct (decide (t = i)) as [->|Hne].
  - exists (producer_stop th0). by rewrite lookup_alter_eq, Hth.
  - exists th0. by rewrite lookup_alter_ne.
Qed.

Lemma steady_stop self : steady self (stop self).
Proof.
  repeat split; try done. intros i th0 Hth. rewrite lookup_stop, Hth.
  case_decide; [by exists (producer_stop th0)|by exists th0].
Qed.

Lemma steady_thread_step (t : ThreadId) (s : Snapshot) self :
  steady self (thread_step t s self).
Proof.
  destruct (thread_step_fields t s self) as (_ & Hr & He).
  split; [exact Hr|]. split; [exact He|].
  intros i th0 Hth. unfold thread_step.
  destruct (threads self !! t) as [tht|] eqn:Et; [|by exists th0].
  destruct (producer_step_keeps (fun _ => True) s tht) as (Hp & _ & _ & _);
    [done|by intros; apply Forall_true|].
  assert (exists th, <[t:=(producer_step s tht).1]> (threads self) !! i
                     = Some th /\ path th = path th0) as Hl.
  { destruct (decide (t = i)) as [->|Hne].
    - rewrite lookup_insert_eq. eexists. split; [done|]. congruence.
    - rewrite lookup_insert_ne by done. by exists th0. }
  destruct (producer_step s tht) as [th' [qe|]]; exact Hl.
Qed.

Lemma steady_same_heap self self' :
  rules self' = rules self ->
  event_producer_threads self' = event_producer_threads self ->
  threads self' = threads self ->
  steady self self'.
Proof.
  intros Hr He Hth. repeat split; try done.
  intros t th0 H. exists th0. by rewrite Hth.
Qed.

Lemma steady_run_step self : steady self (run_step self).
Proof.
  unfold run_step.
  destruct (run_pc self) as [|n rest|t n rest| |e] eqn:E;
    try apply steady_refl.
  - unfold for_next. case_decide; [|by apply steady_same_heap].
    destruct rest as [|t rest']; [by apply steady_same_heap|].
    case_decide; [|by apply steady_same_heap].
    destruct (threads self !! t) as [th|] eqn:Eth;
      [|by apply steady_same_heap].
    unfold producer_start.
    destruct (pc th); try (by apply steady_same_heap).
    repeat split; try done. intros i th0 Hth. simpl.
    destruct (decide (t = i)) as [->|Hne].
    + rewrite lookup_insert_eq. eexists. split; [done|]. simpl. congruence.
    + rewrite lookup_insert_ne by done. by exists th0.
  - destruct (dispatch_next_shape self t n rest E) as (He & Hr & Hth & _).
    unfold run_step in He, Hr, Hth. rewrite E in He, Hr, Hth.
    split; [exact Hr|]. split; [exact He|].
    intros i th0 Hi. destruct Hth as [->| ->]; [by exists th0|].
    by apply (steady_stop_thread t self).
Qed.

Lemma steady_interrupt self : steady self (interrupt self).
Proof.
  unfold interrupt.
  destruct (run_pc self) as [|n rest|t n rest| |e];
    try (by apply steady_same_heap).
  apply (steady_stop_thread t self).
Qed.

Lemma steady_observer_start self : steady self (observer_start self).
Proof.
  unfold observer_start. destruct (run_pc self); by apply steady_same_heap.
Qed.

Lemma consistent_steady self self' :
  steady self self' -> rules_consistent self -> rules_consistent self'.
Proof.
  intros (Hr & He & Hth) [W2 W3]. unfold rules_consistent.
  rewrite Hr, He. split; [|exact W3].
  intros p r Hpr. destruct (W2 p r Hpr) as (Hin & th0 & Hth0 & Hp).
  split; [exact Hin|]. destruct (Hth _ _ Hth0) as (th & ? & ?).
  exists th. split; [done|congruence].
Qed.

Lemma fresh_thread_unused self :
  threads self !! fresh (dom (threads self)) = None.
Proof. apply not_elem_of_dom, is_fresh. Qed.

Lemma consistent_add_rule (p : string) (h : Handler) self :
  rules_consistent self -> rules_consistent (add_rule p h self).
Proof.
  intros [W2 W3]. unfold add_rule.
  destruct (rules self !! p) as [r|] eqn:Er; [by split|].
  pose proof (fresh_thread_unused self) as Hfresh.
  split; simpl.
  - intros p' r'. destruct (decide (p = p')) as [<-|Hne].
    + rewrite lookup_insert_eq. intros [= <-]. simpl.
      split; [apply elem_of_union_l, elem_of_singleton; reflexivity|].
      eexists. by rewrite lookup_insert_eq.
    + rewrite lookup_insert_ne by done. intros Hr'.
      destruct (W2 p' r' Hr') as (Hin & th & Hth & Hp).
      split; [by apply elem_of_union_r|]. exists th. split; [|done].
      rewrite lookup_insert_ne; [done|]. congruence.
  - intros t. rewrite elem_of_union, elem_of_singleton. intros [->|Hin].
    + eexists p, _. by rewrite lookup_insert_eq.
    + destruct (W3 t Hin) as (p' & r' & Hr' & Ht).
      exists p', r'. split; [|done].
      rewrite lookup_insert_ne; [done|]. congruence.
Qed.

Lemma consistent_remove_rule (p : string) self :
  rules_consistent self -> rules_consistent (remove_rule p self).1.
Proof.
  intros [W2 W3]. unfold remove_rule.
  destruct (rules self !! p) as [r|] eqn:Er; [|by split].
  destruct (W2 p r Er) as (Hin & thp & Hthp & Hpp).
  split; simpl.
  - intros p' r'. rewrite lookup_delete_Some. intros [Hne Hr'].
    destruct (W2 p' r' Hr') as (Hin' & th & Hth & Hp).
    assert (event_producer_thread r' <> event_producer_thread r) as Hdiff.
    { intros Heq. rewrite Heq in Hth. congruence. }
    split.
    + apply elem_of_difference. split; [done|].
      by rewrite elem_of_singleton.
    + exists th. split; [|done]. by rewrite lookup_alter_ne.
  - intros t. rewrite elem_of_difference, elem_of_singleton.
    intros [Hint Hne]. destruct (W3 t Hint) as (p' & r' & Hr' & Ht).
    exists p', r'. split; [|done].
    rewrite lookup_delete_ne; [done|]. intros <-. congruence.
Qed.

Lemma consistent_act (a : Action Snapshot) self :
  rules_consistent self -> rules_consistent (act a self).
Proof.
  destruct a; simpl.
  - apply consistent_steady, steady_observer_start.
  - apply consistent_steady, steady_run_step.
  - apply consistent_steady, steady_thread_step.
  - apply consistent_add_rule.
  - apply consistent_remove_rule.
  - apply consistent_steady, steady_stop.
  - apply consistent_steady, steady_interrupt.
Qed.

Lemma consistent_exec tr : forall self,
  rules_consistent self -> rules_consistent (exec tr self).
Proof.
  induction tr as [|a tr IH]; intros self H; [exact H|].
  rewrite exec_cons. by apply IH, consistent_act.
Qed.

Lemma consistent_init (interval : nat) :
  rules_consistent (PollingObserver_init (Snapshot := Snapshot) interval).
Proof.
  split; simpl.
  - intros p r. by rewrite lookup_empty.
  - intros t Hin. by apply not_elem_of_empty in Hin.
Qed.

(** In a consistent observer two registered threads never watch the same
    path. *)
Lemma consistent_unique self (t1 t2 : ThreadId) th1 th2 :
  rules_consistent self ->
  t1 ∈ event_producer_threads self -> t2 ∈ event_producer_threads self ->
  threads self !! t1 = Some th1 -> threads self !! t2 = Some th2 ->
  path th1 = path th2 -> t1 = t2.
Proof.
  intros [W2 W3] Hin1 Hin2 Hth1 Hth2 Hpath.
  destruct (W3 t1 Hin1) as (p1 & r1 & Hr1 & <-).
  destruct (W3 t2 Hin2) as (p2 & r2 & Hr2 & <-).
  destruct (W2 p1 r1 Hr1) as (_ & th1' & Hth1' & Hp1).
  destruct (W2 p2 r2 Hr2) as (_ & th2' & Hth2' & Hp2).
  assert (p1 = p2) as <- by congruence. congruence.
Qed.

(** Members of the thread set are allocated thread objects. *)
Lemma consistent_members self (t : ThreadId) :
  rules_consistent self -> t ∈ event_producer_threads self ->
  is_Some (threads self !! t).
Proof.
  intros [W2 W3] Hin. destruct (W3 t Hin) as (p & r & Hr & <-).
  destruct (W2 p r Hr) as (_ & th & Hth & _). by exists th.
Qed.

(** [remove_rule] on an unknown path does nothing; on a known path it drops
    the rule, sets the stop flag of the rule's thread and takes the thread
    out of the set, and in a consistent observer [set.remove] does not
    raise. *)
Lemma remove_rule_stops_and_forgets (p : string) self :
  (rules self !! p = None -> remove_rule p self = (self, None)) /\
  (forall r th,
     rules self !! p = Some r ->
     threads self !! event_producer_thread r = Some th ->
     rules (remove_rule p self).1 !! p = None /\
     threads (remove_rule p self).1 !! event_producer_thread r =
       Some (producer_stop th) /\
     (event_producer_thread r ∉
        event_producer_threads (remove_rule p self).1) /\
     run_pc (remove_rule p self).1 = run_pc self /\
     queues (remove_rule p self).1 = queues self /\
     (rules_consistent self -> (remove_rule p self).2 = None)).
Proof.
  split.
  - intros Hnone. unfold remove_rule. by rewrite Hnone.
  - intros r th Hr Hth. unfold remove_rule. rewrite Hr. simpl.
    split; [apply lookup_delete_eq|].
    split; [by rewrite lookup_alter_eq, Hth|].
    split.
    { rewrite elem_of_difference, elem_of_singleton. by intros [_ ?]. }
    split; [reflexivity|]. split; [reflexivity|].
    intros [W2 _]. destruct (W2 p r Hr) as [Hin _].
    by rewrite decide_True.
Qed.


(** ** The claims about rules, start and stop *)

Lemma add_rule_known (p : string) (h : Handler) self :
  is_Some (rules self !! p) -> add_rule p h self = self.
Proof. intros [r Hr]. unfold add_rule. by rewrite Hr. Qed.

Lemma add_rule_registers (p : string) (h : Handler) self :
  is_Some (rules (add_rule p h self) !! p).
Proof.
  unfold add_rule. destruct (rules self !! p) as [r|] eqn:Er.
  - by rewrite Er.
  - simpl. by rewrite lookup_insert_eq.
Qed.

(** C4, as amended: [add_rule(p, handler)] on a running observer makes the
    producer for [p] and records it in the rule table and in the thread
    set, but does not start it.  Only the [for] loop of [run] starts
    threads, and its iterator was made before the new thread existed: as
    long as no further rule is added or removed, the new thread stays
    unstarted and never polls, whatever the threads do, whether [stop] is
    called or an interrupt arrives. *)
Theorem add_rule_registers_without_starting self (p : string) (h : Handler) :
  Running self ->
  rules self !! p = None ->
  let t := fresh (dom (threads self)) in
  let self' := add_rule p h self in
  rules self' !! p = Some (mkRule h t) /\
  t ∈ event_producer_threads self' /\
  threads self' !! t =
    Some (_PollingEventProducer_init p (observer_interval self)
            (Some (event_queue self))) /\
  started t self' = false /\
  run_pc self' = run_pc self /\
  (rules_consistent self ->
   it_size_is (size (event_producer_threads self)) (run_pc self) ->
   forall tr, Forall (fun a => keeps_rules a = true) tr ->
     idle t (exec tr self') /\ started t (exec tr self') = false).
Proof.
  intros Hrun Hnone t self'. subst t self'. unfold add_rule. rewrite Hnone.
  set (t := fresh (dom (threads self))).
  split; [by simpl; rewrite lookup_insert_eq|].
  split; [by simpl; apply elem_of_union_l, elem_of_singleton|].
  split; [by simpl; rewrite lookup_insert_eq|].
  split; [by unfold started; simpl; rewrite lookup_insert_eq|].
  split; [reflexivity|].
  intros Hcons Hit tr Htr.
  match goal with |- idle t (exec tr ?s) /\ _ => set (self' := s) end.
  assert (outgrown (size (event_producer_threads self)) t self') as Ho.
  { split; [|split].
    - assert (t ∉ event_producer_threads self) as Hnotin.
      { intros Hin. destruct (consistent_members self t Hcons Hin) as [th Hth].
        pose proof (fresh_thread_unused self) as Hf. fold t in Hf.
        congruence. }
      subst self'. simpl. rewrite size_union by set_solver.
      rewrite size_singleton. lia.
    - exact Hit.
    - eexists. subst self'. simpl. rewrite lookup_insert_eq. done. }
  pose proof (outgrown_exec tr _ t self' Htr Ho) as (_ & _ & Hidle).
  split; [exact Hidle|by apply idle_not_started].
Qed.

(** C6, as amended: [stop()] sets the stop flag of every thread of the set
    and changes nothing else: not the queue, not the rules, not where [run]
    is.  It does not make [run] return: with handlers that accept, a [run]
    that is in its dispatch loop stays there under every schedule of thread
    steps and further [stop] calls; only an interrupt or an error ends it. *)
Theorem stop_sets_flags_only self :
  (forall t th, t ∈ event_producer_threads self ->
     threads self !! t = Some th ->
     threads (stop self) !! t = Some (producer_stop th)) /\
  (forall t, t ∉ event_producer_threads self ->
     threads (stop self) !! t = threads self !! t) /\
  run_pc (stop self) = run_pc self /\
  queues (stop self) = queues self /\
  rules (stop self) = rules self /\
  event_producer_threads (stop self) = event_producer_threads self /\
  (forall t n rest, run_pc self = Dispatching t n rest -> calm self ->
     forall tr, Forall (fun a => quiet a = true) tr ->
       run_pc (exec tr (stop self)) = Dispatching t n rest).
Proof.
  split; [|split].
  - intros t th Hin Hth. rewrite lookup_stop, Hth. by rewrite decide_True.
  - intros t Hnin. rewrite lookup_stop. by rewrite decide_False.
  - repeat split; try done.
    intros t n rest Hpc Hcalm tr Htr.
    destruct (dispatching_forever tr (stop self) t n rest Htr
                (calm_stop self Hcalm) Hpc) as (_ & Hk & _).
    exact Hk.
Qed.

(** C9, as amended: the identity of a watch is the path string as it was
    passed to [add_rule]; no canonical form is computed.  A second
    [add_rule] with the same string changes nothing, and in every state the
    observer can reach, two threads of the set never watch the same path
    string. *)
Theorem watch_identity_is_path_string :
  (forall self (p : string) (h1 h2 : Handler),
     add_rule p h2 (add_rule p h1 self) = add_rule p h1 self) /\
  (forall (interval : nat) tr,
     let self := exec tr (PollingObserver_init interval) in
     rules_consistent self /\
     forall (t1 t2 : ThreadId) th1 th2,
       t1 ∈ event_producer_threads self ->
       t2 ∈ event_producer_threads self ->
       threads self !! t1 = Some th1 ->
       threads self !! t2 = Some th2 ->
       path th1 = path th2 -> t1 = t2).
Proof.
  split.
  - intros self p h1 h2. apply add_rule_known, add_rule_registers.
  - intros interval tr self.
    assert (rules_consistent self) as Hc
      by apply consistent_exec, consistent_init.
    split; [exact Hc|]. intros t1 t2 th1 th2. by apply consistent_unique.
Qed.

End ObserverProperties.

(** * The claims on concrete runs *)

Lemma running_one_rule_calm : calm (running_one_rule accept_all).
Proof.
  unfold running_one_rule. apply calm_exec.
  - unfold poll_twice. simpl. repeat constructor.
  - apply calm_add_rule; [done|]. apply calm_init.
Qed.

Lemma running_two_rules_calm : calm running_two_rules.
Proof.
  unfold running_two_rules, two_rules. apply calm_exec.
  - repeat constructor.
  - apply calm_add_rule; [done|]. apply calm_add_rule; [done|].
    apply calm_init.
Qed.

(** C1, counterexample: the rule for [/data] is removed while three of its
    entries are queued.  The next pass of the dispatch loop pops the first
    of them and raises [KeyError]; [run] is over, and the two entries left
    in the queue are never consumed. *)
Lemma stale_entry_ends_run :
  run_pc stale_state = Dispatching 0 1 [] /\
  queues stale_state !! event_queue stale_state =
    Some [("/data", FileDeletedEvent "/data/a");
          ("/data", DirModifiedEvent "/data/d2");
          ("/data", DirDeletedEvent "/data/d1")] /\
  rules stale_state !! "/data" = None /\
  run_pc (run_step stale_state) = Raised (KeyError "/data") /\
  forall k,
    queues (Nat.iter k run_step (run_step stale_state)) !! 0 =
    Some [("/data", DirModifiedEvent "/data/d2");
          ("/data", DirDeletedEvent "/data/d1")].
Proof.
  split; [by vm_compute|]. split; [by vm_compute|]. split; [by vm_compute|].
  assert (run_pc (run_step stale_state) = Raised (KeyError "/data")) as Hk
    by (by vm_compute).
  split; [exact Hk|]. intros k.
  rewrite iter_fixed; [by vm_compute|].
  apply run_step_ended. right. by eexists.
Qed.

(** The stale state of the example, taken through the theorem. *)
Lemma stale_entry_raises_key_error_witness :
  run_pc (run_step stale_state) = Raised (KeyError "/data") /\
  queues (run_step stale_state) !! event_queue stale_state =
    Some [("/data", DirModifiedEvent "/data/d2");
          ("/data", DirDeletedEvent "/data/d1")] /\
  dispatched (run_step stale_state) = dispatched stale_state /\
  forall k, Nat.iter k run_step (run_step stale_state) = run_step stale_state.
Proof.
  apply (stale_entry_raises_key_error stale_state 0 1 [] "/data"
           (FileDeletedEvent "/data/a")); vm_compute; reflexivity.
Defined.

(** C2, counterexample: the handler of [/data] raises an ordinary error on
    the first of three queued entries.  Nothing catches it: [run] ends with
    the error and the two entries left in the queue are never dispatched. *)
Lemma handler_failure_ends_run :
  let s := running_one_rule failing_handler in
  run_pc s = Dispatching 0 1 [] /\
  queues s !! event_queue s =
    Some [("/data", FileDeletedEvent "/data/a");
          ("/data", DirModifiedEvent "/data/d2");
          ("/data", DirDeletedEvent "/data/d1")] /\
  (event_handler <$> rules s !! "/data") = Some failing_handler /\
  run_pc (run_step s) = Raised (HandlerError "boom") /\
  forall k,
    queues (Nat.iter k run_step (run_step s)) !! 0 =
      Some [("/data", DirModifiedEvent "/data/d2");
            ("/data", DirDeletedEvent "/data/d1")] /\
    dispatched (Nat.iter k run_step (run_step s)) =
      [("/data", FileDeletedEvent "/data/a")].
Proof.
  intros s. split; [by vm_compute|]. split; [by vm_compute|].
  split; [by vm_compute|].
  assert (run_pc (run_step s) = Raised (HandlerError "boom")) as Hk
    by (by vm_compute).
  split; [exact Hk|]. intros k.
  rewrite iter_fixed; [by vm_compute|].
  apply run_step_ended. right. by eexists.
Qed.

(** The failing handler of the example, taken through the theorem. *)
Lemma handler_failure_ends_loop_witness :
  let s := running_one_rule failing_handler in
  queues (run_step s) !! event_queue s =
    Some [("/data", DirModifiedEvent "/data/d2");
          ("/data", DirDeletedEvent "/data/d1")] /\
  dispatched (run_step s) =
    dispatched s ++ [("/data", FileDeletedEvent "/data/a")] /\
  (HandlerError "boom" <> KeyboardInterrupt ->
   run_pc (run_step s) = Raised (HandlerError "boom") /\
   forall k, Nat.iter k run_step (run_step s) = run_step s) /\
  (HandlerError "boom" = KeyboardInterrupt ->
   run_pc (run_step s) = ForLoop 1 [] /\
   threads (run_step s) = alter producer_stop 0 (threads s)).
Proof.
  intros s.
  apply (handler_failure_ends_loop s 0 1 [] "/data"
           (FileDeletedEvent "/data/a") _ (mkRule failing_handler 0)
           (HandlerError "boom")); vm_compute; reflexivity.
Defined.

(** C3, on the code: with two rules registered, [run] starts one producer
    and enters the dispatch loop, which is nested in the [for] loop; under
    every schedule of thread steps and [stop] calls it stays there with
    exactly one of the two producers started.  With no rule registered,
    [run] returns at once and never waits for a queue entry. *)
Theorem run_starts_one_producer_of_two :
  size (event_producer_threads two_rules) = 2 /\
  run_pc running_two_rules = Dispatching 1 2 [0] /\
  (forall tr, Forall (fun a => quiet a = true) tr ->
     run_pc (exec tr running_two_rules) = Dispatching 1 2 [0] /\
     started_count (exec tr running_two_rules) = 1 /\
     started 0 (exec tr running_two_rules) = false) /\
  run_pc (exec [ObserverStart; ObserverStep]
            (PollingObserver_init (Snapshot := Listing) 1)) = Returned.
Proof.
  split; [by vm_compute|]. split; [by vm_compute|]. split; [|by vm_compute].
  intros tr Htr.
  destruct (dispatching_forever tr running_two_rules 1 2 [0] Htr
              running_two_rules_calm) as (_ & Hk & _ & He & Hs);
    [by vm_compute|].
  split; [exact Hk|]. split.
  - rewrite (started_count_same _ _ He Hs). by vm_compute.
  - rewrite Hs. by vm_compute.
Qed.

(** One schedule of thread steps and a [stop] call, for illustration. *)
Lemma run_starts_one_producer_of_two_witness :
  let tr := [ObserverStep; ProducerStep 1 baseline_listing; CallStop;
             ProducerStep 0 baseline_listing; ObserverStep] in
  run_pc (exec tr running_two_rules) = Dispatching 1 2 [0] /\
  started_count (exec tr running_two_rules) = 1 /\
  started 0 (exec tr running_two_rules) = false.
Proof.
  intros tr.
  apply (proj1 (proj2 (proj2 run_starts_one_producer_of_two)) tr).
  repeat constructor.
Defined.

(** C4, counterexample: a rule for [/new] is added while [run] is in its
    dispatch loop.  The new producer, thread 1, is constructed and
    registered but not started, and no schedule without further rule
    changes ever starts it. *)
Lemma added_rule_never_started :
  let s := running_one_rule accept_all in
  let s' := add_rule "/new" accept_all s in
  Running s /\
  rules s !! "/new" = None /\
  (event_producer_thread <$> rules s' !! "/new") = Some 1 /\
  (pc <$> threads s' !! 1) = Some Unstarted /\
  forall tr, Forall (fun a => keeps_rules a = true) tr ->
    started 1 (exec tr s') = false.
Proof.
  intros s s'. split; [by vm_compute|]. split; [by vm_compute|].
  split; [by vm_compute|]. split; [by vm_compute|].
  intros tr Htr. apply idle_not_started.
  apply (outgrown_exec tr 1 1 s' Htr).
  split; [by vm_compute|]. split; [by vm_compute|].
  eexists. split; [by vm_compute|]. by split.
Qed.

(** The same run, taken through the theorem: the set had one member when
    [run] began and still has one when [/new] is added. *)
Lemma add_rule_registers_without_starting_witness :
  let s := running_one_rule accept_all in
  let t := fresh (dom (threads s)) in
  let s' := add_rule "/new" accept_all s in
  started t s' = false /\
  run_pc s' = run_pc s /\
  forall tr, Forall (fun a => keeps_rules a = true) tr ->
    idle t (exec tr s') /\ started t (exec tr s') = false.
Proof.
  intros s t s'.
  assert (Running s) as Hrun by (by vm_compute).
  assert (rules s !! "/new" = None) as Hnone by (by vm_compute).
  destruct (add_rule_registers_without_starting s "/new" accept_all
              Hrun Hnone) as (_ & _ & _ & Hs & Hk & Hnever).
  split; [exact Hs|]. split; [exact Hk|].
  apply Hnever.
  - unfold s, running_one_rule.
    apply consistent_exec, consistent_add_rule, consistent_init.
  - by vm_compute.
Defined.

(** C5, counterexample: [stop()] is called on a producer that holds the
    baseline and is in its wait.  The flag is set and ends the wait, yet the
    producer starts a new poll: it takes another snapshot, computes the diff
    and puts its three entries, and only the loop test after that poll ends
    the thread. *)
Lemma stopped_in_wait_polls_again :
  let self := producer_stop (set_pc Waiting polling_producer) in
  let r := producer_exec (repeat (PStep later_listing) 7) self in
  pc self = Waiting /\ stopped self = true /\
  polls self = 1 /\ snapshot self = Some baseline_listing /\
  polls r.1 = 2 /\ snapshot r.1 = Some later_listing /\
  r.2 = [(0, ("/data", FileDeletedEvent "/data/a"));
         (0, ("/data", DirModifiedEvent "/data/d2"));
         (0, ("/data", DirDeletedEvent "/data/d1"))] /\
  pc r.1 = Terminated.
Proof. intros self r. repeat split; by vm_compute. Qed.

(** The four situations of the theorem on example producers: the flag
    already set at the loop test, [stop] called before the snapshot of a
    poll, [stop] called during the emission, and [stop] called during the
    wait. *)
Lemma stop_flag_ends_polling_witness :
  (let r := producer_exec [PStep later_listing; PStop; PStep later_listing]
              stopped_producer in
   r.2 = [] /\ polls r.1 = polls stopped_producer /\
   snapshot r.1 = snapshot stopped_producer /\
   (0 < 2 -> pc r.1 = Terminated)) /\
  (let r := producer_exec
              (PStop :: PStep later_listing ::
               repeat (PStep baseline_listing) 5)
              polling_producer in
   r.2 = [(0, ("/data", FileDeletedEvent "/data/a"));
          (0, ("/data", DirModifiedEvent "/data/d2"));
          (0, ("/data", DirDeletedEvent "/data/d1"))] /\
   snapshot r.1 = Some later_listing /\
   polls r.1 = 2 /\
   pc r.1 = Terminated) /\
  (let r := producer_exec
              (PStop :: repeat (PStep baseline_listing) 4)
              emitting_producer in
   r.2 = [(0, ("/data", DirModifiedEvent "/data/d2"));
          (0, ("/data", DirDeletedEvent "/data/d1"))] /\
   snapshot r.1 = Some later_listing /\
   polls r.1 = 2 /\
   pc r.1 = Terminated) /\
  (let r := producer_exec
              (PStop :: PStep baseline_listing :: PStep later_listing ::
               repeat (PStep baseline_listing) 5)
              (set_pc Waiting polling_producer) in
   r.2 = [(0, ("/data", FileDeletedEvent "/data/a"));
          (0, ("/data", DirModifiedEvent "/data/d2"));
          (0, ("/data", DirDeletedEvent "/data/d1"))] /\
   snapshot r.1 = Some later_listing /\
   polls r.1 = 2 /\
   pc r.1 = Terminated).
Proof.
  split; [|split; [|split]]; cycle 3.
  { assert (length (poll later_listing (set_pc Waiting polling_producer)).2
            + 2 <= count_steps (repeat (PStep baseline_listing) 5)) as Hlen
      by (vm_compute; lia).
    exact (proj2 (proj2 (proj2
             (stop_flag_ends_polling (set_pc Waiting polling_producer))))
             eq_refl baseline_listing later_listing
             (repeat (PStep baseline_listing) 5) Hlen). }
  - exact (proj1 (stop_flag_ends_polling stopped_producer) eq_refl eq_refl
             [PStep later_listing; PStop; PStep later_listing]).
  - assert (length (poll later_listing polling_producer).2 + 2 <=
            count_steps (repeat (PStep baseline_listing) 5)) as Hlen
      by (vm_compute; lia).
    exact (proj1 (proj2 (stop_flag_ends_polling polling_producer)) eq_refl
             later_listing (repeat (PStep baseline_listing) 5) Hlen).
  - assert (2 + 2 <= count_steps (repeat (PStep baseline_listing) 4)) as Hlen
      by (vm_compute; lia).
    exact (proj1 (proj2 (proj2 (stop_flag_ends_polling emitting_producer))) 0
             [("/data", DirModifiedEvent "/data/d2");
              ("/data", DirDeletedEvent "/data/d1")]
             eq_refl (repeat (PStep baseline_listing) 4) Hlen).
Defined.

(** C6, counterexample: [run] is in its dispatch loop with one rule whose
    handler accepts everything.  After [stop()] the producer's flag is set,
    yet under every schedule of thread steps and further [stop] calls [run]
    is still in the dispatch loop: it never returns. *)
Lemma stop_does_not_end_run :
  let s := running_one_rule accept_all in
  run_pc s = Dispatching 0 1 [] /\
  (stopped <$> threads (stop s) !! 0) = Some true /\
  forall tr, Forall (fun a => quiet a = true) tr ->
    run_pc (exec tr (stop s)) = Dispatching 0 1 [] /\
    run_pc (exec tr (stop s)) <> Returned.
Proof.
  intros s. split; [by vm_compute|]. split; [by vm_compute|].
  intros tr Htr.
  destruct (dispatching_forever tr (stop s) 0 1 [] Htr
              (calm_stop s running_one_rule_calm)) as (_ & Hk & _);
    [by vm_compute|].
  split; [exact Hk|]. by rewrite Hk.
Qed.

(** The same run, taken through the theorem. *)
Lemma stop_sets_flags_only_witness :
  let s := running_one_rule accept_all in
  threads (stop s) !! 0 =
    Some {| interval := 1; out_event_queue := Some 0; stopped := true;
            snapshot := Some later_listing; path := "/data"; polls := 2;
            pc := Emitting 0 [] |} /\
  run_pc (stop s) = run_pc s /\
  run_pc (exec [ObserverStep; ProducerStep 0 baseline_listing; CallStop;
                ObserverStep; ObserverStep; ObserverStep] (stop s)) =
    Dispatching 0 1 [].
Proof.
  intros s.
  destruct (stop_sets_flags_only s) as (Hin & _ & Hk & _ & _ & _ & Hloop).
  split; [|split].
  - apply (Hin 0 {| interval := 1; out_event_queue := Some 0;
                    stopped := false; snapshot := Some later_listing;
                    path := "/data"; polls := 2; pc := Emitting 0 [] |});
      by vm_compute.
  - exact Hk.
  - apply (Hloop 0 1 []); [by vm_compute|exact running_one_rule_calm|].
    repeat constructor.
Defined.

(** C7, counterexample: between two polls of [/data] one file and one
    directory disappear and the other directory is reported as modified.
    The source puts the directory modification before the directory
    deletion; the order of the claim has the deletion first. *)
Lemma dir_events_not_in_claimed_order :
  (poll later_listing polling_producer).2 =
    [(0, ("/data", FileDeletedEvent "/data/a"));
     (0, ("/data", DirModifiedEvent "/data/d2"));
     (0, ("/data", DirDeletedEvent "/data/d1"))] /\
  map (pair 0)
    (events_in_spec_order "/data"
       (snapshot_sub later_listing baseline_listing)) =
    [(0, ("/data", FileDeletedEvent "/data/a"));
     (0, ("/data", DirDeletedEvent "/data/d1"));
     (0, ("/data", DirModifiedEvent "/data/d2"))] /\
  (poll later_listing polling_producer).2 <>
  map (pair 0)
    (events_in_spec_order "/data"
       (snapshot_sub later_listing baseline_listing)).
Proof.
  split; [by vm_compute|]. split; [by vm_compute|].
  vm_compute. discriminate.
Qed.

(** The same poll, taken through the theorem: as one poll and as the
    thread steps that perform it. *)
Lemma poll_emission_order_witness :
  (poll later_listing polling_producer).2 =
    map (pair 0)
      ([("/data", FileDeletedEvent "/data/a")] ++
       [("/data", DirModifiedEvent "/data/d2");
        ("/data", DirDeletedEvent "/data/d1")]) /\
  (producer_exec
     (map PStep (later_listing :: repeat baseline_listing 4))
     polling_producer).2 =
    [(0, ("/data", FileDeletedEvent "/data/a"));
     (0, ("/data", DirModifiedEvent "/data/d2"));
     (0, ("/data", DirDeletedEvent "/data/d1"))].
Proof.
  destruct (poll_emission_order polling_producer baseline_listing
              later_listing 0 eq_refl eq_refl) as (Hpoll & _ & _ & Hexec).
  split; [exact Hpoll|].
  exact (Hexec eq_refl (repeat baseline_listing 4) eq_refl).
Defined.

(** A first poll on an example producer, and a schedule that ends before
    a second poll. *)
Lemma first_poll_is_baseline_witness :
  snapshot fresh_producer = None /\
  snapshot (poll baseline_listing fresh_producer).1 = Some baseline_listing /\
  (poll baseline_listing fresh_producer).2 = [] /\
  (let acts := PStop :: repeat (PStep baseline_listing) 4 in
   let self0 :=
     set_pc LoopTest (_PollingEventProducer_init "/data" 1 (Some 0)) in
   polls (producer_exec acts self0).1 <= 1 /\
   (producer_exec acts self0).2 = []).
Proof.
  destruct (first_poll_is_baseline (Snapshot := Listing)) as (Hpoll & Hexec).
  split; [reflexivity|].
  destruct (Hpoll fresh_producer baseline_listing eq_refl) as (Hs & Hp & _).
  split; [exact Hs|]. split; [exact Hp|].
  intros acts self0.
  assert (polls (producer_exec acts self0).1 <= 1) as Hle
    by (vm_compute; lia).
  split; [exact Hle|].
  exact (proj2 (Hexec "/data" 1 (Some 0) acts) Hle).
Defined.

(** C9, counterexample: [/data] and [/data/] have the same canonical path,
    yet adding a rule for each registers two rules and two producers, both
    watching the same directory. *)
Lemma two_watches_one_canonical_path :
  let s : PollingObserver Listing :=
    add_rule "/data/" accept_all
      (add_rule "/data" accept_all (PollingObserver_init 1)) in
  canonical "/data" = canonical "/data/" /\
  size (event_producer_threads s) = 2 /\
  size (rules s) = 2 /\
  (path <$> threads s !! 0) = Some "/data" /\
  (path <$> threads s !! 1) = Some "/data/" /\
  0 ∈ event_producer_threads s /\
  1 ∈ event_producer_threads s.
Proof.
  intros s. repeat split; by vm_compute.
Qed.

(** The same path string added twice. *)
Lemma watch_identity_is_path_string_witness :
  let s0 : PollingObserver Listing := PollingObserver_init 1 in
  let s := exec [CallAddRule "/data" accept_all;
                 CallAddRule "/data" failing_handler] s0 in
  add_rule "/data" failing_handler (add_rule "/data" accept_all s0) =
    add_rule "/data" accept_all s0 /\
  size (event_producer_threads s) = 1 /\
  (0 ∈ event_producer_threads s -> 0 ∈ event_producer_threads s ->
   0 = 0).
Proof.
  intros s0 s.
  destruct (watch_identity_is_path_string (Snapshot := Listing))
    as (Hidem & Hreach).
  split; [apply Hidem|]. split; [by vm_compute|].
  destruct (Hreach 1 [CallAddRule "/data" accept_all;
                      CallAddRule "/data" failing_handler]) as (_ & Huniq).
  intros H1 H2.
  apply (Huniq 0 0 (_PollingEventProducer_init "/data" 1 (Some 0))
           (_PollingEventProducer_init "/data" 1 (Some 0)));
    try exact H1; by vm_compute.
Defined.

(** A producer without a queue polls a changed directory and puts
    nothing. *)
Lemma no_queue_no_events_witness :
  out_event_queue queueless_producer = None /\
  snapshot (poll later_listing queueless_producer).1 = Some later_listing /\
  polls (poll later_listing queueless_producer).1 = 2 /\
  (poll later_listing queueless_producer).2 = [] /\
  (producer_exec
     (map PStep (later_listing :: repeat baseline_listing 9))
     queueless_producer).2 = [].
Proof.
  destruct (no_queue_no_events queueless_producer eq_refl) as (Hpoll & Hexec).
  destruct (Hpoll later_listing) as (Hs & Hp & He & _).
  split; [reflexivity|]. split; [exact Hs|]. split; [exact Hp|].
  split; [exact He|].
  apply Hexec. intros q pending. discriminate.
Defined.

(** A handler that raises [KeyboardInterrupt] is the one failure the loop
    catches: the producer is stopped, the [for] loop resumes, finds no
    further thread, and [run] returns with two entries left in the queue. *)
Example interrupting_handler_ends_run :
  let s := running_one_rule interrupting_handler in
  run_pc (run_step s) = ForLoop 1 [] /\
  (stopped <$> threads (run_step s) !! 0) = Some true /\
  run_pc (run_step (run_step s)) = Returned /\
  (length <$> queues (run_step (run_step s)) !! 0) = Some 2.
Proof. intros s. repeat split; by vm_compute. Qed.

(** A waiting producer is stopped and polls once more. *)
Lemma stop_during_wait_still_polls_witness :
  let self := set_pc Waiting stopped_producer in
  let r := producer_exec [PStop; PStep baseline_listing; PStep later_listing]
             self in
  stopped r.1 = true /\ polls r.1 = 2 /\ snapshot r.1 = Some later_listing.
Proof.
  exact (stop_during_wait_still_polls (set_pc Waiting stopped_producer)
           baseline_listing later_listing eq_refl).
Defined.

(** Removing an unknown and a known path from the running example. *)
Lemma remove_rule_stops_and_forgets_witness :
  let s := running_one_rule accept_all in
  remove_rule "/nowhere" s = (s, None) /\
  rules (remove_rule "/data" s).1 !! "/data" = None /\
  threads (remove_rule "/data" s).1 !! 0 =
    Some {| interval := 1; out_event_queue := Some 0; stopped := true;
            snapshot := Some later_listing; path := "/data"; polls := 2;
            pc := Emitting 0 [] |} /\
  (0 ∉ event_producer_threads (remove_rule "/data" s).1) /\
  (remove_rule "/data" s).2 = None.
Proof.
  intros s.
  destruct (remove_rule_stops_and_forgets "/nowhere" s) as (Hunknown & _).
  destruct (remove_rule_stops_and_forgets "/data" s) as (_ & Hknown).
  split; [apply Hunknown; by vm_compute|].
  destruct (Hknown (mkRule accept_all 0)
              {| interval := 1; out_event_queue := Some 0;
                 stopped := false; snapshot := Some later_listing;
                 path := "/data"; polls := 2; pc := Emitting 0 [] |})
    as (Hr & Hth & Hnin & _ & _ & Hok); [by vm_compute|by vm_compute|].
  split; [exact Hr|]. split; [exact Hth|]. split; [exact Hnin|].
  apply Hok. unfold s, running_one_rule.
  apply consistent_exec, consistent_add_rule, consistent_init.
Defined.

(** * Further properties of the producer *)

Section ProducerCompositions.
Context {Snapshot : Type} `{!DirectorySnapshot Snapshot}.
Implicit Types (self : _PollingEventProducer Snapshot).
Implicit Types (acts : list (ProducerAction Snapshot)).

Lemma poll_seq_cons (s : Snapshot) (snaps : list Snapshot) self :
  poll_seq (s :: snaps) self =
  ((poll_seq snaps (poll s self).1).1,
   (poll s self).2 ++ (poll_seq snaps (poll s self).1).2).
Proof.
  cbn [poll_seq]. destruct (poll s self) as [self1 puts1]. cbn [fst snd].
  destruct (poll_seq snaps self1) as [self2 puts2]. reflexivity.
Qed.

Lemma poll_with_previous (s s0 : Snapshot) (q : QueueId) self :
  snapshot self = Some s0 ->
  out_event_queue self = Some q ->
  (poll s self).2 =
  map (pair q) (events_of_diff (path self) (snapshot_sub s s0)).
Proof.
  intros Hs Hq. unfold poll, _get_directory_snapshot_diff, emission. simpl.
  by rewrite Hs, Hq.
Qed.

Lemma poll_without_previous (s : Snapshot) self :
  snapshot self = None -> (poll s self).2 = [].
Proof.
  intros Hs. unfold poll, _get_directory_snapshot_diff, emission. simpl.
  by rewrite Hs.
Qed.

Lemma poll_seq_adjacent (snaps : list Snapshot) : forall self s0 q,
  snapshot self = Some s0 ->
  out_event_queue self = Some q ->
  (poll_seq snaps self).2 =
    map (pair q)
      (concat (zip_with
                 (fun old new =>
                    events_of_diff (path self) (snapshot_sub new old))
                 (s0 :: snaps) snaps)) /\
  snapshot (poll_seq snaps self).1 = Some (default s0 (last snaps)) /\
  polls (poll_seq snaps self).1 = polls self + length snaps.
Proof.
  induction snaps as [|s snaps IH]; intros self s0 q Hs Hq.
  - simpl. repeat split; [done|lia].
  - rewrite poll_seq_cons. cbn [fst snd].
    destruct (IH (poll s self).1 s q eq_refl Hq) as (Hputs & Hsnap & Hpolls).
    rewrite Hputs, Hsnap, Hpolls, (poll_with_previous s s0 q self Hs Hq).
    change (path (poll s self).1) with (path self).
    change (polls (poll s self).1) with (S (polls self)).
    split; [|split].
    + cbn [zip_with concat]. by rewrite map_app.
    + destruct snaps as [|s' snaps']; [done|].
      rewrite last_cons_cons.
      destruct (last (s' :: snaps')) eqn:E; [done|].
      by apply last_None in E.
    + cbn [length]. lia.
Qed.

(** One round of the [while] loop in thread steps: the test, the wait, the
    snapshot and the puts.  Its effect is that of [poll]. *)
Lemma loop_round_is_poll (w1 w2 new_snapshot : Snapshot)
    (snaps : list Snapshot) self :
  pc self = LoopTest -> stopped self = false ->
  length snaps =
    match emission (poll new_snapshot self).1
            (_get_directory_snapshot_diff new_snapshot self).2 with
    | Some (_, evs) => S (length evs)
    | None => 0
    end ->
  producer_exec (map PStep (w1 :: w2 :: new_snapshot :: snaps)) self =
  (set_pc LoopTest (poll new_snapshot self).1, (poll new_snapshot self).2).
Proof.
  intros Hpc Hst Hlen. rewrite !map_cons, !producer_exec_step.
  assert (producer_step w1 self = (set_pc Waiting self, None)) as ->.
  { unfold producer_step. by rewrite Hpc, Hst. }
  cbn [fst snd].
  assert (producer_step w2 (set_pc Waiting self) = (set_pc Polling self, None))
    as -> by reflexivity.
  cbn [fst snd].
  rewrite (step_polling new_snapshot (set_pc Polling self) eq_refl).
  cbn [fst snd option_list app].
  change (poll new_snapshot (set_pc Polling self)).1
    with (set_pc Polling (poll new_snapshot self).1).
  change (_get_directory_snapshot_diff new_snapshot (set_pc Polling self)).2
    with (_get_directory_snapshot_diff new_snapshot self).2.
  rewrite poll_puts.
  change (emission (set_pc Polling (poll new_snapshot self).1))
    with (emission (poll new_snapshot self).1).
  destruct (emission (poll new_snapshot self).1
              (_get_directory_snapshot_diff new_snapshot self).2)
    as [[q evs]|].
  - rewrite (exec_emitting_steps snaps
               (set_pc (Emitting q evs)
                  (set_pc Polling (poll new_snapshot self).1))
               q evs eq_refl Hlen).
    reflexivity.
  - destruct snaps; [reflexivity|discriminate].
Qed.

(** Each diff is taken between one snapshot and the next: from a producer
    that holds snapshot [s0], the polls of the snapshots [snaps] put the
    events of the diffs of adjacent snapshots of [s0 :: snaps], in order,
    and no snapshot is the older side of two diffs; from a producer without
    a snapshot the first poll only sets the baseline. *)
Theorem polls_diff_adjacent_snapshots (snaps : list Snapshot) self
    (s0 : Snapshot) (q : QueueId) :
  out_event_queue self = Some q ->
  let adjacent :=
    concat (zip_with
              (fun old new =>
                 events_of_diff (path self) (snapshot_sub new old))
              (s0 :: snaps) snaps) in
  (snapshot self = Some s0 ->
   (poll_seq snaps self).2 = map (pair q) adjacent /\
   snapshot (poll_seq snaps self).1 = Some (default s0 (last snaps)) /\
   polls (poll_seq snaps self).1 = polls self + length snaps) /\
  (snapshot self = None ->
   (poll_seq (s0 :: snaps) self).2 = map (pair q) adjacent /\
   snapshot (poll_seq (s0 :: snaps) self).1 =
     Some (default s0 (last snaps)) /\
   polls (poll_seq (s0 :: snaps) self).1 = polls self + S (length snaps)).
Proof.
  intros Hq adjacent. split.
  - intros Hs. by apply poll_seq_adjacent.
  - intros Hnone. rewrite poll_seq_cons. cbn [fst snd].
    destruct (poll_seq_adjacent snaps (poll s0 self).1 s0 q eq_refl Hq)
      as (Hputs & Hsnap & Hpolls).
    rewrite Hputs, Hsnap, Hpolls, (poll_without_previous s0 self Hnone).
    change (polls (poll s0 self).1) with (S (polls self)).
    split; [done|]. split; [done|lia].
Qed.

(** ** After [stop] *)

Lemma step_keeps_stopped (s : Snapshot) self :
  stopped (producer_step s self).1 = stopped self.
Proof.
  unfold producer_step.
  destruct (pc self) as [| | | |q [|e rest]|]; try reflexivity.
  - by destruct (stopped self) eqn:Est.
  - simpl. by destruct (emission _ _) as [[q evs]|].
Qed.

Lemma exec_stopped_stays acts : forall self,
  stopped self = true -> stopped (producer_exec acts self).1 = true.
Proof.
  induction acts as [|[s|] acts IH]; intros self Hst; [exact Hst| |].
  - rewrite producer_exec_step. cbn [fst]. apply IH.
    by rewrite step_keeps_stopped.
  - rewrite producer_exec_stop. by apply IH.
Qed.

Lemma exec_unstarted acts : forall self,
  pc self = Unstarted ->
  (producer_exec acts self).2 = [] /\
  pc (producer_exec acts self).1 = Unstarted /\
  polls (producer_exec acts self).1 = polls self.
Proof.
  induction acts as [|[s|] acts IH]; intros self Hpc; [done| |].
  - rewrite producer_exec_step. unfold producer_step. rewrite Hpc.
    cbn [fst snd option_list app]. by apply IH.
  - rewrite producer_exec_stop. by apply (IH (producer_stop self)).
Qed.

Lemma exec_stopped_emitting_polls acts : forall self q pending,
  pc self = Emitting q pending -> stopped self = true ->
  polls (producer_exec acts self).1 = polls self.
Proof.
  induction acts as [|[s|] acts IH]; intros self q pending Hpc Hst; [done| |].
  - rewrite producer_exec_step. unfold producer_step. rewrite Hpc.
    destruct pending as [|e rest]; cbn [fst].
    + by destruct (exec_stopped_at_test acts (set_pc LoopTest self)
                     eq_refl Hst) as (_ & -> & _).
    + by rewrite (IH (set_pc (Emitting q rest) self) q rest eq_refl Hst).
  - rewrite producer_exec_stop.
    by rewrite (IH (producer_stop self) q pending Hpc eq_refl).
Qed.

Lemma exec_stopped_polling_polls acts : forall self,
  pc self = Polling -> stopped self = true ->
  polls (producer_exec acts self).1 <= S (polls self).
Proof.
  induction acts as [|[s|] acts IH]; intros self Hpc Hst.
  - simpl. lia.
  - rewrite producer_exec_step, (step_polling s self Hpc). cbn [fst].
    destruct (emission (poll s self).1
                (_get_directory_snapshot_diff s self).2) as [[q evs]|].
    + rewrite (exec_stopped_emitting_polls acts
                 (set_pc (Emitting q evs) (poll s self).1) q evs
                 eq_refl Hst).
      simpl. lia.
    + destruct (exec_stopped_at_test acts (set_pc LoopTest (poll s self).1)
                  eq_refl Hst) as (_ & -> & _).
      simpl. lia.
  - rewrite producer_exec_stop. by apply (IH (producer_stop self)).
Qed.

Lemma exec_stopped_waiting_polls acts : forall self,
  pc self = Waiting -> stopped self = true ->
  polls (producer_exec acts self).1 <= S (polls self).
Proof.
  induction acts as [|[s|] acts IH]; intros self Hpc Hst.
  - simpl. lia.
  - rewrite producer_exec_step. unfold producer_step. rewrite Hpc.
    cbn [fst].
    by apply (exec_stopped_polling_polls acts (set_pc Polling self)).
  - rewrite producer_exec_stop. by apply (IH (producer_stop self)).
Qed.

(** The stop flag is never cleared, and once it is set the producer takes
    at most one more snapshot, whatever the schedule and wherever the thread
    is: none unless it is in the wait or about to take its snapshot. *)
Theorem after_stop_at_most_one_poll self acts :
  stopped self = true ->
  stopped (producer_exec acts self).1 = true /\
  polls (producer_exec acts self).1 <= S (polls self) /\
  (pc self <> Waiting -> pc self <> Polling ->
   polls (producer_exec acts self).1 = polls self).
Proof.
  intros Hst. split; [by apply exec_stopped_stays|].
  destruct (pc self) as [| | | |q pending|] eqn:Hpc.
  - destruct (exec_unstarted acts self Hpc) as (_ & _ & ->).
    split; [lia|done].
  - destruct (exec_stopped_at_test acts self Hpc Hst) as (_ & -> & _).
    split; [lia|done].
  - split; [by apply exec_stopped_waiting_polls|done].
  - split; [by apply exec_stopped_polling_polls|done].
  - rewrite (exec_stopped_emitting_polls acts self q pending Hpc Hst).
    split; [lia|done].
  - destruct (exec_terminated acts self Hpc) as (_ & _ & -> & _).
    split; [lia|done].
Qed.

(** A producer whose stop flag was set before [start()] can still be
    started, but it returns at its first loop test: it never waits, polls or
    puts an entry.  The flag is never cleared, so a stopped producer cannot
    be used again. *)
Theorem stopped_before_start_never_polls self acts :
  pc self = Unstarted -> stopped self = true ->
  exists self', producer_start self = inr self' /\
    (producer_exec acts self').2 = [] /\
    polls (producer_exec acts self').1 = polls self /\
    snapshot (producer_exec acts self').1 = snapshot self /\
    (0 < count_steps acts -> pc (producer_exec acts self').1 = Terminated).
Proof.
  intros Hpc Hst. exists (set_pc LoopTest self). split.
  - unfold producer_start. by rewrite Hpc.
  - destruct (exec_stopped_at_test acts (set_pc LoopTest self) eq_refl Hst)
      as (? & ? & ? & _ & ?).
    by repeat split.
Qed.


(** ** What a producer keeps through its whole life *)

Lemma events_of_diff_tagged (w : string) (d : DiffResult) :
  Forall (fun entry : string * FileSystemEvent => entry.1 = w)
    (events_of_diff w d).
Proof.
  unfold events_of_diff. rewrite !Forall_app, !Forall_map.
  repeat split; by apply Forall_true.
Qed.

Lemma step_keeps_own (s : Snapshot) self :
  own_entries self ->
  (polls self = 0 <-> snapshot self = None) ->
  own_entries (producer_step s self).1 /\
  path (producer_step s self).1 = path self /\
  interval (producer_step s self).1 = interval self /\
  out_event_queue (producer_step s self).1 = out_event_queue self /\
  (polls (producer_step s self).1 = 0 <->
   snapshot (producer_step s self).1 = None) /\
  (forall put, (producer_step s self).2 = Some put ->
     out_event_queue self = Some put.1 /\ put.2.1 = path self).
Proof.
  intros Hown Hsnap.
  assert (forall k, (forall q pending, k <> Emitting q pending) ->
            own_entries (set_pc k self)) as Hidle.
  { intros k Hk q pending Hpc. simpl in Hpc. by destruct (Hk q pending). }
  unfold producer_step.
  destruct (pc self) as [| | | |q0 pending0|] eqn:E.
  - split; [exact Hown|]. do 4 (split; [done|]). intros put [=].
  - destruct (stopped self);
      (split; [by apply Hidle|]); do 4 (split; [done|]); intros put [=].
  - split; [by apply Hidle|]. do 4 (split; [done|]). intros put [=].
  - unfold emission. simpl.
    destruct (snapshot self) as [old|] eqn:Es,
             (out_event_queue self) as [q0|] eqn:Eq; simpl;
      (split; [|do 3 (split; [done|]); split; [done|intros put [=]]]);
      intros q pending Hpc; simpl in Hpc; try discriminate.
    injection Hpc as <- <-. simpl. split; [done|].
    apply events_of_diff_tagged.
  - destruct (Hown q0 pending0 E) as [Hq Hall].
    destruct pending0 as [|e rest]; simpl.
    + split; [by apply Hidle|]. do 4 (split; [done|]). intros put [=].
    + inversion Hall as [|? ? He Hrest]; subst.
      split; [|do 4 (split; [done|]); by intros put [= <-]].
      intros q pending Hpc. simpl in Hpc. injection Hpc as <- <-.
      by split.
  - split; [exact Hown|]. do 4 (split; [done|]). intros put [=].
Qed.

Lemma exec_keeps_own acts : forall self,
  own_entries self ->
  (polls self = 0 <-> snapshot self = None) ->
  Forall (fun put : nat * (string * FileSystemEvent) =>
            out_event_queue self = Some put.1 /\ put.2.1 = path self)
    (producer_exec acts self).2 /\
  path (producer_exec acts self).1 = path self /\
  interval (producer_exec acts self).1 = interval self /\
  out_event_queue (producer_exec acts self).1 = out_event_queue self /\
  (polls (producer_exec acts self).1 = 0 <->
   snapshot (producer_exec acts self).1 = None).
Proof.
  induction acts as [|[s|] acts IH]; intros self Hown Hsnap.
  - simpl. by repeat split; try apply Hsnap.
  - rewrite producer_exec_step. cbn [fst snd].
    destruct (step_keeps_own s self Hown Hsnap)
      as (Hown1 & Hp1 & Hi1 & Hq1 & Hs1 & Hput).
    destruct (IH (producer_step s self).1 Hown1 Hs1)
      as (Hall & Hp2 & Hi2 & Hq2 & Hs2).
    rewrite Hp1, Hq1 in Hall. rewrite Hp2, Hi2, Hq2, Hp1, Hi1, Hq1.
    split; [|by repeat split; try apply Hs2].
    apply Forall_app. split; [|exact Hall].
    destruct (producer_step s self).2 as [put|]; simpl; [|constructor].
    apply Forall_singleton. by apply Hput.
  - rewrite producer_exec_stop.
    apply (IH (producer_stop self)); [exact Hown|exact Hsnap].
Qed.

(** Whatever the schedule, a producer made by [__init__] and started never
    changes its path, its interval or its queue; every entry it puts goes
    to the queue it was given and is tagged with its own path; and it holds
    a snapshot exactly when it has polled. *)
Theorem producer_puts_are_its_own (watched : string) (n : nat)
    (q : option QueueId) acts :
  let self0 := set_pc LoopTest (_PollingEventProducer_init watched n q) in
  let r := producer_exec acts self0 in
  Forall (fun put : nat * (string * FileSystemEvent) =>
            q = Some put.1 /\ put.2.1 = watched) r.2 /\
  path r.1 = watched /\
  interval r.1 = n /\
  out_event_queue r.1 = q /\
  (polls r.1 = 0 <-> snapshot r.1 = None).
Proof.
  intros self0 r. apply (exec_keeps_own acts self0).
  - intros q0 pending. discriminate.
  - done.
Qed.

End ProducerCompositions.

(** * Further properties of the observer *)

Section ObserverCompositions.
Context {Snapshot : Type} `{!DirectorySnapshot Snapshot}.
Implicit Types (self : PollingObserver Snapshot).
Implicit Types (th : _PollingEventProducer Snapshot).
Implicit Types (tr : list (Action Snapshot)).

(** ** The dispatch loop on a queue of entries whose handlers accept *)

(** The dispatch loop takes the entries of its queue from the front, one
    per pass, and hands each of them once to the handler registered for its
    path: when every queued entry has a rule whose handler returns, as many
    passes as there are entries empty the queue, the handlers have seen the
    entries in queue order, and [run] then blocks in [get]. *)
Theorem dispatch_is_fifo (l : list (string * FileSystemEvent)) :
  forall self t n rest,
  run_pc self = Dispatching t n rest ->
  queues self !! event_queue self = Some l ->
  Forall (fun entry : string * FileSystemEvent =>
            exists r, rules self !! entry.1 = Some r /\
                      event_handler r entry.2 = None) l ->
  let s' := exec (repeat ObserverStep (length l)) self in
  dispatched s' = dispatched self ++ l /\
  queues s' !! event_queue self = Some [] /\
  run_pc s' = Dispatching t n rest /\
  threads s' = threads self /\
  rules s' = rules self /\
  run_step s' = s'.
Proof.
  induction l as [|[p e] l IH]; intros self t n rest Hpc Hq Hall.
  - simpl. rewrite app_nil_r. repeat split; try done.
    by apply (dispatch_blocked self t n rest).
  - inversion Hall as [|? ? (r & Hr & Hh) Hall']; subst. simpl in Hr, Hh.
    cbn [length repeat]. rewrite exec_cons. cbn [act].
    rewrite (dispatch_handler _ _ _ _ _ _ _ _ Hpc Hq Hr). simpl. rewrite Hh.
    match goal with |- context [exec _ ?s] => set (self2 := s) end.
    destruct (IH self2 t n rest) as (Hd & Hq' & Hk & Hth & Hru & Hblk).
    + exact Hpc.
    + subst self2. simpl. apply lookup_insert_eq.
    + exact Hall'.
    + rewrite Hd, Hk, Hth, Hru, Hblk. subst self2. simpl.
      rewrite <- app_assoc. repeat split; try done.
Qed.

(** ** Adding and removing rules *)

(** [add_rule] followed by [remove_rule] of the same new path gives back
    the rule table and the thread set as they were, and touches neither the
    queue nor [run]; what remains is the thread object that was made, with
    its stop flag set and never started.  [set.remove] finds the thread. *)
Theorem add_then_remove_restores self (p : string) (h : Handler) :
  rules self !! p = None ->
  rules_consistent self ->
  let t := fresh (dom (threads self)) in
  let r := remove_rule p (add_rule p h self) in
  rules r.1 = rules self /\
  event_producer_threads r.1 = event_producer_threads self /\
  queues r.1 = queues self /\
  run_pc r.1 = run_pc self /\
  dispatched r.1 = dispatched self /\
  threads r.1 =
    <[t := producer_stop
             (_PollingEventProducer_init p (observer_interval self)
                (Some (event_queue self)))]> (threads self) /\
  r.2 = None /\
  rules_consistent r.1.
Proof.
  intros Hnone Hcons t r.
  assert (t ∉ event_producer_threads self) as Hnotin.
  { intros Hin. destruct (consistent_members self t Hcons Hin) as [th Hth].
    pose proof (fresh_thread_unused self) as Hf. fold t in Hf. congruence. }
  assert (rules_consistent r.1) as Hcons'
    by apply consistent_remove_rule, consistent_add_rule, Hcons.
  subst r. unfold add_rule in *. rewrite Hnone in *. fold t in Hcons' |- *.
  unfold remove_rule in *. cbn [rules] in *.
  rewrite lookup_insert_eq in *. cbn [fst snd event_producer_thread] in *.
  cbn [rules event_producer_threads queues run_pc dispatched threads].
  split; [by apply delete_insert_id|].
  split.
  { apply set_eq. intros i.
    rewrite elem_of_difference, elem_of_union, !elem_of_singleton.
    split; [by intros [[->|?] ?]|]. intros Hi. split; [by right|].
    by intros ->. }
  do 3 (split; [reflexivity|]).
  split; [apply alter_insert_eq|].
  split; [|exact Hcons'].
  rewrite decide_True; [done|]. apply elem_of_union_l.
  by apply elem_of_singleton.
Qed.

(** [remove_rule] followed by [add_rule] of the same path replaces both the
    handler and the producer: the old thread has its stop flag set and
    leaves the set, the new rule holds a different, newly made thread that
    is not started, and the queue keeps the entries the old producer put,
    which are now looked up under the new rule. *)
Theorem readd_replaces_producer self (p : string) (h : Handler)
    (r0 : Rule) th0 :
  rules self !! p = Some r0 ->
  threads self !! event_producer_thread r0 = Some th0 ->
  let t0 := event_producer_thread r0 in
  let t := fresh (dom (threads self)) in
  let s' := add_rule p h (remove_rule p self).1 in
  t <> t0 /\
  rules s' !! p = Some (mkRule h t) /\
  threads s' !! t0 = Some (producer_stop th0) /\
  threads s' !! t =
    Some (_PollingEventProducer_init p (observer_interval self)
            (Some (event_queue self))) /\
  (t0 ∉ event_producer_threads s') /\
  t ∈ event_producer_threads s' /\
  queues s' = queues self /\
  run_pc s' = run_pc self.
Proof.
  intros Hr Hth t0 t s'.
  assert (t <> t0) as Hne.
  { intros Heq. pose proof (fresh_thread_unused self) as Hf.
    fold t in Hf. rewrite Heq in Hf. unfold t0 in Hf. congruence. }
  assert (fresh (dom (alter producer_stop t0 (threads self))) = t) as Hfresh.
  { unfold t. f_equal. apply leibniz_equiv, dom_alter. }
  subst s'. unfold remove_rule. rewrite Hr. cbn [fst].
  unfold add_rule. cbn [rules threads]. rewrite lookup_delete_eq.
  cbn [rules threads event_producer_threads queues run_pc observer_interval
       event_queue].
  fold t0. rewrite Hfresh.
  split; [exact Hne|].
  split; [apply lookup_insert_eq|].
  split.
  { rewrite lookup_insert_ne by done. rewrite lookup_alter_eq.
    unfold t0. by rewrite Hth. }
  split; [apply lookup_insert_eq|].
  split.
  { rewrite elem_of_union, elem_of_singleton, elem_of_difference,
      elem_of_singleton.
    intros [Heq|[_ Hn]]; [by apply Hne|by apply Hn]. }
  split; [apply elem_of_union_l; by apply elem_of_singleton|].
  by split.
Qed.

(** ** The [__main__] block *)

(** What the first step of [run] leaves after the set-up of [__main__]. *)
Lemma main_first_step (p : string) (h : Handler) :
  run_step (main_setup Snapshot p h) =
  {| threads :=
       {[ 0 := set_pc LoopTest
                 (_PollingEventProducer_init (Snapshot := Snapshot) p 1
                    (Some 0)) ]};
     queues := {[ 0 := [] ]};
     observer_interval := 1;
     event_queue := 0;
     event_producer_threads := {[ 0 ]};
     rules := {[ p := mkRule h 0 ]};
     run_pc := Dispatching 0 1 [];
     dispatched := [] |}.
Proof.
  unfold main_setup, add_rule. cbn [PollingObserver_init rules].
  rewrite lookup_empty. by vm_compute.
Qed.

Lemma main_after_schedule (p : string) (h : Handler) tr :
  (forall e, h e = None) ->
  Forall (fun a => quiet a = true) tr ->
  let s := exec tr (run_step (main_setup Snapshot p h)) in
  calm s /\
  run_pc s = Dispatching 0 1 [] /\
  rules s = {[ p := mkRule h 0 ]} /\
  event_producer_threads s = {[ 0 ]} /\
  (forall i, started i s = started i (run_step (main_setup Snapshot p h))).
Proof.
  intros Hh Htr s.
  assert (calm (run_step (main_setup Snapshot p h))) as Hcalm.
  { apply calm_run_step, calm_observer_start, calm_add_rule; [done|].
    apply calm_init. }
  destruct (dispatching_forever tr (run_step (main_setup Snapshot p h))
              0 1 [] Htr Hcalm) as (Hc & Hk & Hr & He & Hs).
  { by rewrite main_first_step. }
  rewrite main_first_step in Hr, He. cbn [rules event_producer_threads] in *.
  by repeat (split; [done|]).
Qed.

(** The way [__main__] uses the observer, with one rule added before
    [start] and a handler that does not raise: [run] starts the rule's
    producer with its first step and then serves the queue; under every
    schedule of thread steps it is in the dispatch loop of that producer,
    which is started, and the rule table and the thread set are those of the
    set-up. *)
Theorem main_runs_its_one_producer (p : string) (h : Handler) tr :
  (forall e, h e = None) ->
  Forall (fun a => quiet a = true) tr ->
  let s := exec tr (run_step (main_setup Snapshot p h)) in
  run_pc s = Dispatching 0 1 [] /\
  started 0 s = true /\
  started_count s = 1 /\
  rules s = {[ p := mkRule h 0 ]} /\
  event_producer_threads s = {[ 0 ]}.
Proof.
  intros Hh Htr s.
  destruct (main_after_schedule p h tr Hh Htr) as (_ & Hk & Hr & He & Hs).
  fold s in Hk, Hr, He, Hs.
  assert (started 0 (run_step (main_setup Snapshot p h)) = true) as H0
    by (rewrite main_first_step; by vm_compute).
  split; [exact Hk|]. split; [by rewrite Hs|].
  split; [|by split].
  unfold started_count. rewrite He, elements_singleton.
  rewrite filter_cons_True by (by rewrite Hs). done.
Qed.

(** The shutdown of [__main__], [o.remove_rule(path)] and then [o.stop()],
    after any schedule of thread steps: the rule table and the thread set
    are empty, the producer has its stop flag set (by [remove_rule]; [stop]
    finds no thread left), the queue is as it was, and [run] is still in its
    dispatch loop.  If an entry is queued at that moment, the next pass of
    the loop raises [KeyError] for the removed path. *)
Theorem main_shutdown_leaves_run_behind (p : string) (h : Handler) tr :
  (forall e, h e = None) ->
  Forall (fun a => quiet a = true) tr ->
  let s := exec tr (run_step (main_setup Snapshot p h)) in
  let s' := main_shutdown p s in
  rules s' = ∅ /\
  event_producer_threads s' = ∅ /\
  (stopped <$> threads s' !! 0) = Some true /\
  stop (remove_rule p s).1 = (remove_rule p s).1 /\
  queues s' = queues s /\
  run_pc s' = Dispatching 0 1 [] /\
  (forall entry l,
     queues s !! event_queue s = Some (entry :: l) ->
     run_pc (run_step s') = Raised (KeyError p)).
Proof.
  intros Hh Htr s s'.
  destruct (main_after_schedule p h tr Hh Htr) as (Hc & Hk & Hr & He & Hs).
  fold s in Hc, Hk, Hr, He, Hs.
  assert (exists th, threads s !! 0 = Some th) as [th Hth].
  { assert (started 0 s = true) as H0.
    { rewrite Hs, main_first_step. by vm_compute. }
    unfold started in H0. destruct (threads s !! 0) as [th|]; [|done].
    by exists th. }
  assert ((remove_rule p s).1 =
          {| threads := alter producer_stop 0 (threads s);
             queues := queues s;
             observer_interval := observer_interval s;
             event_queue := event_queue s;
             event_producer_threads := ∅;
             rules := ∅;
             run_pc := Dispatching 0 1 [];
             dispatched := dispatched s |}) as Hrem.
  { unfold remove_rule. rewrite Hr, lookup_singleton_eq.
    cbn [fst event_producer_thread]. rewrite He, Hk, delete_singleton_eq.
    by rewrite difference_diag_L. }
  assert (stop (remove_rule p s).1 = (remove_rule p s).1) as Hstop.
  { rewrite Hrem. unfold stop, set_threads.
    cbn [event_producer_threads threads queues observer_interval event_queue
         rules run_pc dispatched].
    by rewrite elements_empty. }
  subst s'. unfold main_shutdown. rewrite Hstop, Hrem.
  cbn [rules event_producer_threads threads queues run_pc].
  do 2 (split; [reflexivity|]).
  split; [by rewrite lookup_alter_eq, Hth|].
  do 3 (split; [reflexivity|]).
  intros entry l Hq.
  destruct Hc as (_ & Hqs & _).
  pose proof (Hqs _ _ Hq) as Hall. inversion Hall as [|? ? Hruled _]; subst.
  unfold ruled in Hruled. rewrite Hr in Hruled.
  destruct Hruled as [r Hlook]. apply lookup_singleton_Some in Hlook.
  destruct Hlook as [Hp _]. destruct entry as [p' e]. simpl in Hp. subst p'.
  rewrite (dispatch_stale _ 0 1 [] p e l); [done|done|exact Hq|].
  apply lookup_empty.
Qed.

(** ** [run] starts each thread once *)












(** ** The [for] loop while the set is as it was at [start()] *)







(** ** A [KeyboardInterrupt] in the dispatch loop *)


(** ** From the polls of a single producer to its handler *)

Lemma pending_of_lookup (t : ThreadId) self th :
  threads self !! t = Some th ->
  pending_of t self =
  match pc th with
  | Emitting q pending => if decide (q = event_queue self) then pending else []
  | _ => []
  end.
Proof. intros Hth. unfold pending_of. by rewrite Hth. Qed.

Lemma pending_of_same (t : ThreadId) self self' :
  event_queue self' = event_queue self ->
  pc <$> threads self' !! t = pc <$> threads self !! t ->
  pending_of t self' = pending_of t self.
Proof.
  intros He Hpc. unfold pending_of. rewrite He.
  destruct (threads self' !! t) as [th'|], (threads self !! t) as [th|];
    try done.
  injection Hpc as ->. done.
Qed.

Lemma sole_same_threads (t : ThreadId) self self' :
  event_queue self' = event_queue self ->
  threads self' = threads self ->
  is_Some (queues self' !! event_queue self) ->
  sole t self -> sole t self'.
Proof.
  intros He Hth Hq [Hall _]. unfold sole. rewrite He, Hth. by split.
Qed.

Lemma stream_run_step (t : ThreadId) self (t0 n : nat)
    (rest : list ThreadId) :
  calm self -> run_pc self = Dispatching t0 n rest -> sole t self ->
  stream t (run_step self) = stream t self /\ sole t (run_step self).
Proof.
  intros Hcalm Hk Hsole. pose proof Hcalm as (Hh & Hq & _).
  destruct (queues self !! event_queue self) as [[|[p e] q']|] eqn:El.
  - by rewrite (dispatch_blocked _ _ _ _ Hk El).
  - pose proof (Hq _ _ El) as Hl. inversion Hl as [|? ? [r Hr] _]; subst.
    simpl in Hr.
    rewrite (dispatch_handler _ _ _ _ _ _ _ _ Hk El Hr). simpl.
    rewrite (Hh _ _ e Hr). split.
    + unfold stream. cbn [dispatched queues event_queue log_dispatch
                          set_queues].
      rewrite lookup_insert_eq, El. cbn [default].
      rewrite (pending_of_same t self); [|done|done].
      by rewrite <- !app_assoc.
    + apply (sole_same_threads t self); [done|done| |done].
      simpl. rewrite lookup_insert_eq. by eexists.
  - destruct Hsole as [_ [l Hl]]. congruence.
Qed.

Lemma stream_stop (t : ThreadId) self :
  sole t self -> stream t (stop self) = stream t self /\ sole t (stop self).
Proof.
  intros [Hall Hq]. split.
  - unfold stream. cbn [dispatched queues event_queue stop set_threads].
    f_equal. f_equal. apply pending_of_same; [done|].
    rewrite lookup_stop. case_decide; [|done].
    by destruct (threads self !! t).
  - split; [|exact Hq]. intros i th. rewrite lookup_stop.
    assert (forall th0, threads self !! i = Some th0 ->
              Some (producer_stop th0) = Some th \/ Some th0 = Some th ->
              i = t /\ out_event_queue th = Some (event_queue (stop self)) /\
              forall q pending, pc th = Emitting q pending ->
                                q = event_queue (stop self)) as Hcase.
    { intros th0 Hth0 [[= <-]|[= <-]]; by apply (Hall i th0). }
    destruct (threads self !! i) as [th0|] eqn:Hth0.
    + case_decide; intros Hl; apply (Hcase th0 eq_refl); auto.
    + by case_decide.
Qed.

(** What a step of the only thread does to the stream, by the place the
    thread is at. *)
Lemma stream_thread_step (t i : ThreadId) (snap : Snapshot) self :
  sole t self ->
  stream t (thread_step i snap self) =
    stream t self ++ polled_by t (ProducerStep i snap) self /\
  sole t (thread_step i snap self).
Proof.
  intros Hsole. pose proof Hsole as [Hall [l Hl]].
  unfold thread_step, polled_by.
  destruct (threads self !! i) as [th|] eqn:Hth.
  2:{ split; [|done]. case_decide as Hi; [|by rewrite app_nil_r].
      subst i. by rewrite Hth, app_nil_r. }
  destruct (Hall i th Hth) as (-> & Hqueue & Hemit).
  rewrite decide_True, Hth by done.
  assert (forall th',
            out_event_queue th' = Some (event_queue self) ->
            (forall q pending, pc th' = Emitting q pending ->
                               q = event_queue self) ->
            forall l', sole t
              (set_queues (<[event_queue self := l']> (queues self))
                 (set_threads (<[t := th']> (threads self)) self)))
    as Hsole'.
  { intros th' Hq' He' l'. split.
    - intros j thj. simpl. destruct (decide (t = j)) as [<-|Hne].
      + rewrite lookup_insert_eq. by intros [= <-].
      + rewrite lookup_insert_ne by done. apply Hall.
    - simpl. rewrite lookup_insert_eq. by eexists. }
  assert (forall th' l',
            stream t
              (set_queues (<[event_queue self := l']> (queues self))
                 (set_threads (<[t := th']> (threads self)) self)) =
            dispatched self ++ l' ++
            match pc th' with
            | Emitting q pending =>
                if decide (q = event_queue self) then pending else []
            | _ => []
            end) as Hstream'.
  { intros th' l'. unfold stream, pending_of. simpl.
    by rewrite !lookup_insert_eq. }
  assert (forall th',
            set_threads (<[t := th']> (threads self)) self =
            set_queues (<[event_queue self := l]> (queues self))
              (set_threads (<[t := th']> (threads self)) self)) as Hsame.
  { intros th'. unfold set_queues, set_threads. simpl.
    by rewrite (insert_id _ _ _ Hl). }
  assert (stream t self =
          dispatched self ++ l ++
          match pc th with
          | Emitting q pending =>
              if decide (q = event_queue self) then pending else []
          | _ => []
          end) as Hstream.
  { unfold stream. by rewrite Hl, (pending_of_lookup t self th Hth). }
  rewrite Hstream. unfold producer_step.
  destruct (pc th) as [| | | |q pending|] eqn:Hpc.
  - rewrite Hsame, Hstream', Hpc, ?app_nil_r. split; [done|].
    apply Hsole'; [done|]. intros q pending. by rewrite Hpc.
  - destruct (stopped th); rewrite Hsame, Hstream'; simpl;
      rewrite ?app_nil_r;
      (split; [done|]); apply Hsole'; try done;
      intros q' pending' Hx; simpl in Hx; discriminate.
  - rewrite Hsame, Hstream'. simpl. rewrite ?app_nil_r. split; [done|].
    (apply Hsole'; [done|]; intros q' pending' Hx; simpl in Hx;
      discriminate).
  - rewrite poll_puts. unfold poll, _get_directory_snapshot_diff, emission.
    simpl. rewrite Hqueue.
    destruct (snapshot th) as [old|]; simpl.
    + rewrite Hsame, Hstream'. simpl. rewrite decide_True by done.
      rewrite app_nil_r, <- !app_assoc.
      split.
      * do 2 f_equal. rewrite map_map. simpl. by rewrite map_id.
      * apply Hsole'; [done|]. intros q pending. simpl. by intros [= <- _].
    + rewrite Hsame, Hstream'. simpl. rewrite ?app_nil_r. split; [done|].
      (apply Hsole'; [done|]; intros q' pending' Hx; simpl in Hx;
      discriminate).
  - pose proof (Hemit q pending eq_refl) as ->.
    rewrite decide_True by done.
    destruct pending as [|e rest'].
    + rewrite Hsame, Hstream'. simpl. rewrite ?app_nil_r. split; [done|].
      (apply Hsole'; [done|]; intros q' pending' Hx; simpl in Hx;
      discriminate).
    + assert (queue_put (event_queue self, e)
                (set_threads
                   (<[t := set_pc (Emitting (event_queue self) rest') th]>
                      (threads self)) self) =
              set_queues (<[event_queue self := l ++ [e]]> (queues self))
                (set_threads
                   (<[t := set_pc (Emitting (event_queue self) rest') th]>
                      (threads self)) self)) as ->.
      { unfold queue_put, set_queues. simpl. f_equal.
        apply map_eq. intros j.
        destruct (decide (event_queue self = j)) as [<-|Hne].
        - by rewrite lookup_alter_eq, lookup_insert_eq, Hl.
        - by rewrite lookup_alter_ne, lookup_insert_ne. }
      rewrite Hstream'. simpl. rewrite decide_True by done.
      rewrite app_nil_r, <- !app_assoc. split; [done|].
      apply Hsole'; [done|]. intros q pending. simpl. by intros [= <- _].
  - rewrite Hsame, Hstream', Hpc, ?app_nil_r. split; [done|].
    apply Hsole'; [done|]. intros q pending. by rewrite Hpc.
Qed.

Lemma stream_act (t : ThreadId) (a : Action Snapshot) self (t0 n : nat)
    (rest : list ThreadId) :
  quiet a = true -> calm self -> run_pc self = Dispatching t0 n rest ->
  sole t self ->
  stream t (act a self) = stream t self ++ polled_by t a self /\
  sole t (act a self).
Proof.
  intros Ha Hcalm Hk Hsole. destruct a; try discriminate; cbn [act].
  - destruct (stream_run_step t self t0 n rest Hcalm Hk Hsole) as [-> ?].
    by rewrite app_nil_r.
  - by apply stream_thread_step.
  - destruct (stream_stop t self Hsole) as [-> ?]. by rewrite app_nil_r.
Qed.

Lemma stream_exec (t : ThreadId) tr : forall self (t0 n : nat)
    (rest : list ThreadId),
  Forall (fun a => quiet a = true) tr ->
  calm self -> run_pc self = Dispatching t0 n rest -> sole t self ->
  stream t (exec tr self) = stream t self ++ emitted t tr self.
Proof.
  induction tr as [|a tr IH]; intros self t0 n rest Htr Hcalm Hk Hsole.
  - simpl. by rewrite app_nil_r.
  - inversion Htr as [|? ? Ha Htr']; subst. rewrite exec_cons.
    destruct (quiet_act_dispatching a self t0 n rest Ha Hcalm Hk)
      as (Hcalm1 & Hk1 & _).
    destruct (stream_act t a self t0 n rest Ha Hcalm Hk Hsole)
      as [Hstream1 Hsole1].
    rewrite (IH (act a self) t0 n rest Htr' Hcalm1 Hk1 Hsole1), Hstream1.
    cbn [emitted]. by rewrite <- app_assoc.
Qed.

(** With a single producer and handlers that accept, nothing is lost,
    repeated or reordered on the way from the polls to the handlers: after
    any schedule of thread steps and [stop] calls, the entries handed to the
    handlers, followed by those in the queue and those the producer still
    has to put, are exactly the entries that were there before followed by
    the entries of the polls made during the schedule, poll after poll.  What
    the handlers have seen is therefore always an initial part of what the
    polls produced. *)
Theorem single_producer_stream (t : ThreadId) tr self (t0 n : nat)
    (rest : list ThreadId) :
  calm self -> run_pc self = Dispatching t0 n rest -> sole t self ->
  Forall (fun a => quiet a = true) tr ->
  stream t (exec tr self) = stream t self ++ emitted t tr self /\
  dispatched (exec tr self) `prefix_of` stream t self ++ emitted t tr self.
Proof.
  intros Hcalm Hk Hsole Htr.
  pose proof (stream_exec t tr self t0 n rest Htr Hcalm Hk Hsole) as Hs.
  split; [exact Hs|]. rewrite <- Hs. unfold stream. by eexists.
Qed.

(** The observer of [__main__] after the first step of [run] has a single
    producer. *)
Lemma main_sole (p : string) (h : Handler) :
  sole 0 (run_step (main_setup Snapshot p h)).
Proof.
  rewrite main_first_step. split; simpl.
  - intros i th Hl. apply lookup_singleton_Some in Hl as [<- <-].
    split; [done|]. split; [done|]. intros q pending. discriminate.
  - rewrite lookup_singleton_eq. by eexists.
Qed.

Lemma main_calm (p : string) (h : Handler) :
  (forall e, h e = None) -> calm (run_step (main_setup Snapshot p h)).
Proof.
  intros Hh. apply calm_run_step, calm_observer_start, calm_add_rule; [done|].
  apply calm_init.
Qed.

End ObserverCompositions.

(** * The further properties on concrete runs *)

(** Two polls after the baseline: the events of the two adjacent diffs. *)
Lemma polls_diff_adjacent_snapshots_witness :
  let snaps := [later_listing; baseline_listing] in
  let adjacent :=
    concat (zip_with
              (fun old new =>
                 events_of_diff "/data" (snapshot_sub new old))
              (baseline_listing :: snaps) snaps) in
  out_event_queue polling_producer = Some 0 /\
  snapshot polling_producer = Some baseline_listing /\
  (poll_seq snaps polling_producer).2 = map (pair 0) adjacent /\
  snapshot (poll_seq snaps polling_producer).1 = Some baseline_listing /\
  polls (poll_seq snaps polling_producer).1 = 1 + 2.
Proof.
  intros snaps adjacent. split; [reflexivity|]. split; [reflexivity|].
  exact (proj1 (polls_diff_adjacent_snapshots snaps polling_producer
                  baseline_listing 0 eq_refl) eq_refl).
Defined.

(** A stopped producer in its wait, followed through five thread steps. *)
Lemma after_stop_at_most_one_poll_witness :
  let self := set_pc Waiting stopped_producer in
  let acts := repeat (PStep later_listing) 5 in
  stopped self = true /\
  stopped (producer_exec acts self).1 = true /\
  polls (producer_exec acts self).1 <= S (polls self) /\
  (pc self <> Waiting -> pc self <> Polling ->
   polls (producer_exec acts self).1 = polls self).
Proof.
  intros self acts. split; [reflexivity|].
  exact (after_stop_at_most_one_poll self acts eq_refl).
Defined.

(** A producer stopped before it is started. *)
Lemma stopped_before_start_never_polls_witness :
  let self :=
    producer_stop (_PollingEventProducer_init "/data" 1 (Some 0)) in
  let acts := repeat (PStep baseline_listing) 3 in
  pc self = Unstarted /\ stopped self = true /\
  exists self', producer_start self = inr self' /\
    (producer_exec acts self').2 = [] /\
    polls (producer_exec acts self').1 = polls self /\
    snapshot (producer_exec acts self').1 = snapshot self /\
    (0 < count_steps acts -> pc (producer_exec acts self').1 = Terminated).
Proof.
  intros self acts. split; [reflexivity|]. split; [reflexivity|].
  exact (stopped_before_start_never_polls self acts eq_refl eq_refl).
Defined.

(** The three queued entries of the running example are dispatched in queue
    order. *)
Lemma dispatch_is_fifo_witness :
  let s := running_one_rule accept_all in
  let l := [("/data", FileDeletedEvent "/data/a");
            ("/data", DirModifiedEvent "/data/d2");
            ("/data", DirDeletedEvent "/data/d1")] in
  let s' := exec (repeat ObserverStep (length l)) s in
  dispatched s' = dispatched s ++ l /\
  queues s' !! event_queue s = Some [] /\
  run_pc s' = Dispatching 0 1 [] /\
  threads s' = threads s /\
  rules s' = rules s /\
  run_step s' = s'.
Proof.
  intros s l.
  apply (dispatch_is_fifo l s 0 1 []); [by vm_compute|by vm_compute|].
  repeat constructor; exists (mkRule accept_all 0); by vm_compute.
Defined.

(** A rule for a new path added to the running example and removed
    again. *)
Lemma add_then_remove_restores_witness :
  let s := running_one_rule accept_all in
  let r := remove_rule "/new" (add_rule "/new" accept_all s) in
  rules r.1 = rules s /\
  event_producer_threads r.1 = event_producer_threads s /\
  queues r.1 = queues s /\
  run_pc r.1 = run_pc s /\
  r.2 = None.
Proof.
  intros s r.
  assert (rules s !! "/new" = None) as Hnone by (by vm_compute).
  assert (rules_consistent s) as Hcons.
  { unfold s, running_one_rule.
    apply consistent_exec, consistent_add_rule, consistent_init. }
  destruct (add_then_remove_restores s "/new" accept_all Hnone Hcons)
    as (Hr & He & Hq & Hk & _ & _ & Hok & _).
  by repeat split.
Defined.

(** The rule of the running example removed and added again with another
    handler. *)
Lemma readd_replaces_producer_witness :
  let s := running_one_rule accept_all in
  let s' := add_rule "/data" failing_handler (remove_rule "/data" s).1 in
  rules s' !! "/data" = Some (mkRule failing_handler 1) /\
  threads s' !! 0 =
    Some {| interval := 1; out_event_queue := Some 0; stopped := true;
            snapshot := Some later_listing; path := "/data"; polls := 2;
            pc := Emitting 0 [] |} /\
  threads s' !! 1 = Some (_PollingEventProducer_init "/data" 1 (Some 0)) /\
  queues s' = queues s.
Proof.
  intros s s'.
  assert (fresh (dom (threads s)) = 1) as Ht by (by vm_compute).
  assert (observer_interval s = 1) as Hi by (by vm_compute).
  assert (event_queue s = 0) as He by (by vm_compute).
  destruct (readd_replaces_producer s "/data" failing_handler
              (mkRule accept_all 0)
              {| interval := 1; out_event_queue := Some 0;
                 stopped := false; snapshot := Some later_listing;
                 path := "/data"; polls := 2; pc := Emitting 0 [] |})
    as (_ & Hr & Hold & Hnew & _ & _ & Hq & _);
    [by vm_compute|by vm_compute|].
  rewrite Ht in Hr, Hnew. rewrite Hi, He in Hnew.
  split; [exact Hr|]. split; [exact Hold|]. split; [exact Hnew|exact Hq].
Defined.


(** The set-up of [__main__] for [/data], followed by two polls. *)
Lemma main_runs_its_one_producer_witness :
  let s := exec (poll_twice 0)
             (run_step (main_setup Listing "/data" accept_all)) in
  run_pc s = Dispatching 0 1 [] /\
  started 0 s = true /\
  started_count s = 1 /\
  rules s = {[ "/data" := mkRule accept_all 0 ]} /\
  event_producer_threads s = {[ 0 ]}.
Proof.
  apply (main_runs_its_one_producer "/data" accept_all (poll_twice 0));
    [done|]. unfold poll_twice. simpl. repeat constructor.
Defined.

(** The shutdown of [__main__] while three entries are queued. *)
Lemma main_shutdown_leaves_run_behind_witness :
  let s := exec (poll_twice 0)
             (run_step (main_setup Listing "/data" accept_all)) in
  let s' := main_shutdown "/data" s in
  rules s' = ∅ /\
  event_producer_threads s' = ∅ /\
  (stopped <$> threads s' !! 0) = Some true /\
  run_pc s' = Dispatching 0 1 [] /\
  run_pc (run_step s') = Raised (KeyError "/data").
Proof.
  intros s s'.
  assert (Forall (fun a : Action Listing => quiet a = true) (poll_twice 0))
    as Hq by (unfold poll_twice; simpl; repeat constructor).
  destruct (main_shutdown_leaves_run_behind "/data" accept_all (poll_twice 0)
              ltac:(done) Hq) as (Hr & He & Hst & _ & _ & Hk & Hstale).
  split; [exact Hr|]. split; [exact He|]. split; [exact Hst|].
  split; [exact Hk|].
  apply (Hstale ("/data", FileDeletedEvent "/data/a")
           [("/data", DirModifiedEvent "/data/d2");
            ("/data", DirDeletedEvent "/data/d1")]).
  by vm_compute.
Defined.


(** The observer of [__main__] through two polls and two passes of the
    dispatch loop. *)
Lemma single_producer_stream_witness :
  let s0 := run_step (main_setup Listing "/data" accept_all) in
  let tr := poll_twice 0 ++ [ObserverStep; ObserverStep] in
  stream 0 (exec tr s0) = stream 0 s0 ++ emitted 0 tr s0 /\
  dispatched (exec tr s0) `prefix_of` stream 0 s0 ++ emitted 0 tr s0.
Proof.
  intros s0 tr.
  apply (single_producer_stream 0 tr s0 0 1 []).
  - by apply main_calm.
  - unfold s0. by rewrite main_first_step.
  - apply main_sole.
  - unfold tr, poll_twice. simpl. repeat constructor.
Defined.

(** One round of the loop of a producer that holds the baseline. *)
Lemma loop_round_is_poll_witness :
  let self := set_pc LoopTest polling_producer in
  producer_exec
    (map PStep (baseline_listing :: baseline_listing :: later_listing ::
                repeat baseline_listing 4)) self =
  (set_pc LoopTest (poll later_listing self).1,
   [(0, ("/data", FileDeletedEvent "/data/a"));
    (0, ("/data", DirModifiedEvent "/data/d2"));
    (0, ("/data", DirDeletedEvent "/data/d1"))]).
Proof.
  intros self.
  exact (loop_round_is_poll baseline_listing baseline_listing later_listing
           (repeat baseline_listing 4) self eq_refl eq_refl eq_refl).
Defined.
